(** * s3_microbench: a shallow embedding of the S3 micro-benchmark driver

    The development follows [s3_microbench.py] function by function.
    Python integers are [Z] (or [nat] where they come out of [range]),
    [bytes] are [list Byte.byte], [str] is [string], Python floats are
    IEEE 754 binary64 values in the Standard Library's [spec_float].
    The local file system is a finite map from paths to contents; the
    storage service, the clock, the thread scheduler and the global
    random module are oracles of the environment. *)

From Stdlib Require Import ZArith List Ascii String Strings.Byte Permutation Lia.
From Stdlib Require Import Decimal DecimalNat DecimalZ DecimalString.
From Stdlib Require Import Floats.SpecFloat.
From stdpp Require Import base option list strings gmap.

Local Open Scope Z_scope.

(** ** Python values used by the program *)

(** Exceptions that the modelled code paths can raise. *)
Inductive exn : Type :=
| OSError
| ValueError
| ZeroDivisionError
| OverflowError
| ClientError (code : string).

(** The outcome of a call: a value, or a raised exception. *)
Inductive Res (A : Type) : Type :=
| Ok (a : A)
| Raise (e : exn).
Arguments Ok {A} a.
Arguments Raise {A} e.

Definition is_ok {A} (r : Res A) : bool :=
  match r with Ok _ => true | Raise _ => false end.

Abbreviation bytes := (list Byte.byte).

(** ** String formatting *)

(** [str(i)] for a non-negative integer. *)
Definition decimal (i : nat) : string :=
  NilEmpty.string_of_uint (Nat.to_uint i).

(** [str(z)] for any integer. *)
Definition decimal_Z (z : Z) : string :=
  NilZero.string_of_int (Z.to_int z).

Fixpoint zeros (k : nat) : string :=
  match k with
  | O => ""
  | S k' => String "0" (zeros k')
  end.

(** The format spec [05d] on a non-negative integer: decimal digits,
    left-padded with zeros to a minimum width of five. *)
Definition format_05d (i : nat) : string :=
  let d := decimal i in
  zeros (5 - String.length d) +:+ d.

(** Reading a digit string back (used to state what a key's index is). *)
Definition digits_value (s : string) : option nat :=
  match NilEmpty.uint_of_string s with
  | Some d => Some (Nat.of_uint d)
  | None => None
  end.

(** [s.rstrip(c)] for a single character [c]. *)
Fixpoint rstrip (c : ascii) (s : string) : string :=
  match s with
  | EmptyString => EmptyString
  | String a s' =>
      match rstrip c s' with
      | EmptyString => if Ascii.eqb a c then EmptyString else String a EmptyString
      | r => String a r
      end
  end.

(** [c * k] *)
Fixpoint repeat_char (c : ascii) (k : nat) : string :=
  match k with
  | O => ""
  | S k' => String c (repeat_char c k')
  end.

Definition ends_with_char (c : ascii) (s : string) : Prop :=
  exists s', s = s' +:+ String c "".

(** ** gen_object_keys *)

Definition object_key (prefix : string) (i : nat) : string :=
  prefix +:+ "/obj_" +:+ format_05d i +:+ ".bin".

(** [[f"{prefix}/obj_{i:05d}.bin" for i in range(n)]] *)
Definition gen_object_keys (prefix : string) (n : Z) : list string :=
  map (object_key prefix) (seq 0 (Z.to_nat n)).

(** ** Built-in sequences *)

(** [range(start, stop, step)] for a positive step: the loop
    [i = start; while i < stop: yield i; i += step].  At most [stop]
    values lie below [stop], which bounds the recursion. *)
Fixpoint range_from (fuel : nat) (i stop step : nat) : list nat :=
  match fuel with
  | O => []
  | S fuel' =>
      if (i <? stop)%nat then i :: range_from fuel' (i + step)%nat stop step
      else []
  end.

Definition py_range3 (start stop step : nat) : list nat :=
  range_from stop start stop step.

(** [l[i:j]] for [0 <= i <= j]. *)
Definition slice {A} (l : list A) (i j : nat) : list A :=
  take (j - i)%nat (drop i l).

Definition len {A} (l : list A) : Z := Z.of_nat (length l).

(** ** Floats (binary64) and the Stats record *)

Definition float := spec_float.
Definition prec : Z := 53.
Definition emax : Z := 1024.

Definition fzero : float := S754_zero false.
Definition finf : float := S754_infinity false.

Definition float_of_int_exact (a : Z) : float :=
  match a with
  | Z0 => S754_zero false
  | Zpos p => S754_finite false p 0
  | Zneg p => S754_finite true p 0
  end.

Definition is_infinite (x : float) : bool :=
  match x with S754_infinity _ => true | _ => false end.

(** [a / b] on two ints: the correctly rounded quotient;
    a zero divisor and a quotient too large for a float raise. *)
Definition int_truediv (a b : Z) : Res float :=
  if b =? 0 then Raise ZeroDivisionError
  else
    let q := SFdiv prec emax (float_of_int_exact a) (float_of_int_exact b) in
    if is_infinite q then Raise OverflowError else Ok q.

(** [x / y] on two floats. *)
Definition float_truediv (x y : float) : Res float :=
  if SFeqb y fzero then Raise ZeroDivisionError
  else Ok (SFdiv prec emax x y).

Definition float_sub (x y : float) : float := SFsub prec emax x y.

(** [x > 0] and [x <= 0] on a float. *)
Definition float_gt0 (x : float) : bool := SFltb fzero x.
Definition float_le0 (x : float) : bool := SFleb x fzero.

Global Instance Res_ret : MRet Res := fun A a => Ok a.
Global Instance Res_bind : MBind Res := fun A B f r =>
  match r with
  | Ok a => f a
  | Raise e => Raise e
  end.

Record Stats : Type := mkStats {
  label : string;
  bytes_total : Z;
  seconds : float
}.

Definition mib (s : Stats) : Res float :=
  int_truediv (bytes_total s) (1024 * 1024).

Definition mib_per_s (s : Stats) : Res float :=
  if float_gt0 (seconds s) then
    m ← mib s; float_truediv m (seconds s)
  else Ok finf.

(** The expression the specification gives for the throughput. *)
Definition spec_throughput (bytes : Z) (secs : float) : Res float :=
  m ← int_truediv bytes 1048576; float_truediv m secs.

(** ** The world the program acts on *)

(** Lines written to standard output, before number formatting. *)
Inductive Line : Type :=
| LGenerating (path : string) (obj_mib write_chunk_kib : Z)
| LLocalGen (mibs secs rate : float)
| LUploading (keys part_mib conc : Z)
| LStats (lbl : string) (mibs secs rate : float)
| LDownloading (read_chunk_kib : Z)
| LRangeReads (per_obj range_kib : Z)
| LKeeping
| LCleaningUp
| LCleanupDone.

Inductive Event : Type :=
| EvPrint (l : Line)
| EvOpen (path : string)
| EvWrite (path : string) (block : bytes)
| EvDeleteObjects (bucket : string) (objects : list string) (quiet : bool)
| EvRemove (path : string).

Record World : Type := mkWorld {
  fs : gmap string bytes;
  ticks : nat;
  out : list Event
}.

Definition emit (e : Event) (w : World) : World :=
  mkWorld (fs w) (ticks w) (out w ++ [e]).

Definition M (A : Type) : Type := World -> Res A * World.

Global Instance M_ret : MRet M := fun A a w => (Ok a, w).
Global Instance M_bind : MBind M := fun A B f m w =>
  match m w with
  | (Ok a, w') => f a w'
  | (Raise e, w') => (Raise e, w')
  end.

Definition lift {A} (r : Res A) : M A := fun w => (r, w).

Definition print (l : Line) : M unit := fun w => (Ok tt, emit (EvPrint l) w).

(** [try: c  except OSError: pass] *)
Definition try_except_OSError (c : M unit) : M unit := fun w =>
  match c w with
  | (Raise OSError, w') => (Ok tt, w')
  | r => r
  end.

(** [os.remove(path)] *)
Definition os_remove (path : string) : M unit := fun w =>
  let w' := emit (EvRemove path) w in
  match fs w !! path with
  | Some _ => (Ok tt, mkWorld (delete path (fs w')) (ticks w') (out w'))
  | None => (Raise OSError, w')
  end.

(** [os.path.getsize(path)] *)
Definition getsize (path : string) : M Z := fun w =>
  match fs w !! path with
  | Some content => (Ok (len content), w)
  | None => (Raise OSError, w)
  end.

(** [open(path, "wb", buffering=0)]: creates or truncates. *)
Definition file_open (path : string) (w : World) : World :=
  let w' := emit (EvOpen path) w in
  mkWorld (<[path := []]> (fs w')) (ticks w') (out w').

(** [f.write(block)]: one unbuffered write, appended to the file. *)
Definition file_write (path : string) (block : bytes) (w : World) : World :=
  let w' := emit (EvWrite path block) w in
  mkWorld (<[path := default [] (fs w !! path) ++ block]> (fs w'))
          (ticks w') (out w').

(** ** The storage client and the environment *)

Record TransferConfig : Type := mkTransferConfig {
  multipart_threshold : Z;
  multipart_chunksize : Z;
  max_concurrency : Z;
  use_threads : bool
}.

(** A response body: what [read()] returns, and the successive results
    of [read(amt)] (past the end of the list a read returns [b""]). *)
Record Body : Type := mkBody {
  read_all : Res bytes;
  read_amt : Z -> list (Res bytes)
}.

Record S3Client : Type := mkS3Client {
  upload_file : string -> string -> string -> TransferConfig -> Res unit;
  get_object : string -> string -> option (Z * Z) -> Res Body;
  head_object : string -> string -> Res Z;
  delete_objects : string -> list string -> bool -> Res unit
}.

Record Env : Type := mkEnv {
  (** successive readings of [time.perf_counter()] *)
  perf_counter : nat -> float;
  (** the order in which [as_completed] yields the futures *)
  as_completed : list (Res Z) -> list (Res Z);
  (** [random.randint(a, b)] as drawn by the worker of a key at its
      j-th ranged read *)
  randint : string -> nat -> Z -> Z -> Z
}.

(** [as_completed] yields every future once, in some order. *)
Definition fair_scheduler (env : Env) : Prop :=
  forall futures, Permutation (as_completed env futures) futures.

(** [random.randint(a, b)] returns N with [a <= N <= b]. *)
Definition randint_in_range (env : Env) : Prop :=
  forall key j a b, a <= b -> a <= randint env key j a b <= b.

Definition now (env : Env) : M float := fun w =>
  (Ok (perf_counter env (ticks w)), mkWorld (fs w) (S (ticks w)) (out w)).

(** ** The worker pool *)

(** [for f in as_completed(futures): total += f.result()], on the
    futures in the order they are yielded: a raising result re-raises
    and leaves the loop. *)
Fixpoint collect (completed : list (Res Z)) (total : Z) : Res Z :=
  match completed with
  | [] => Ok total
  | Ok n :: rest => collect rest (total + n)
  | Raise e :: _ => Raise e
  end.

(** [with ThreadPoolExecutor(max_workers=max_conc) as pool: ...]; the
    constructor rejects a pool without workers. *)
Definition run_pool (env : Env) (max_conc : Z) (futures : list (Res Z)) : Res Z :=
  if max_conc <=? 0 then Raise ValueError
  else collect (as_completed env futures) 0.

(** ** s3_upload_many *)

Definition _upload_one (s3 : S3Client) (bucket local_path : string)
    (cfg : TransferConfig) (file_size : Z) (key : string) : Res Z :=
  _ ← upload_file s3 local_path bucket key cfg; Ok file_size.

(** [TransferConfig(multipart_threshold=..., multipart_chunksize=...,
    max_concurrency=..., use_threads=...)]: the constructor of the
    transfer library raises ValueError for a threshold, a chunk size or
    a concurrency that is not above zero. *)
Definition TransferConfig_new (threshold chunksize concurrency : Z)
    (threads : bool) : Res TransferConfig :=
  if (threshold <=? 0) || (chunksize <=? 0) || (concurrency <=? 0)
  then Raise ValueError
  else Ok (mkTransferConfig threshold chunksize concurrency threads).

Definition s3_upload_many (env : Env) (s3 : S3Client) (bucket : string)
    (keys : list string) (local_path : string) (part_size max_conc : Z) : M Stats :=
  cfg ← lift (TransferConfig_new part_size part_size max_conc true);
  file_size ← getsize local_path;
  t0 ← now env;
  total ← lift (run_pool env max_conc
                  (map (_upload_one s3 bucket local_path cfg file_size) keys));
  t1 ← now env;
  mret (mkStats "S3 PUT (upload_file)" total (float_sub t1 t0)).

(** ** s3_download_many *)

(** [while True: data = body.read(read_chunk); if not data: break;
    n += len(data)] over the successive results of [read]. *)
Fixpoint read_loop (reads : list (Res bytes)) (n : Z) : Res Z :=
  match reads with
  | [] => Ok n
  | Raise e :: _ => Raise e
  | Ok [] :: _ => Ok n
  | Ok data :: rest => read_loop rest (n + len data)
  end.

Definition _download_one (s3 : S3Client) (bucket : string) (read_chunk : Z)
    (key : string) : Res Z :=
  obj ← get_object s3 bucket key None;
  read_loop (read_amt obj read_chunk) 0.

Definition s3_download_many (env : Env) (s3 : S3Client) (bucket : string)
    (keys : list string) (read_chunk max_conc : Z) : M Stats :=
  t0 ← now env;
  total ← lift (run_pool env max_conc
                  (map (_download_one s3 bucket read_chunk) keys));
  t1 ← now env;
  mret (mkStats "S3 GET (stream read)" total (float_sub t1 t0)).

(** ** s3_range_read_many *)

(** The start offset of one ranged read. *)
Definition range_start (env : Env) (key : string) (j : nat)
    (size range_size : Z) : Z :=
  if size <=? range_size then 0
  else randint env key j 0 (size - range_size).

(** The body of [for _ in range(ranges_per_obj)], from iteration [j] on
    with [todo] iterations left.  The result carries the ranges
    requested so far, as [(start, end)]. *)
Fixpoint range_loop (env : Env) (s3 : S3Client) (bucket key : string)
    (size range_size : Z) (todo j : nat) (n : Z) : list (Z * Z) * Res Z :=
  match todo with
  | O => ([], Ok n)
  | S todo' =>
      let start := range_start env key j size range_size in
      let end_ := start + range_size - 1 in
      match resp ← get_object s3 bucket key (Some (start, end_)); read_all resp with
      | Raise e => ([(start, end_)], Raise e)
      | Ok data =>
          let '(reqs, r) :=
            range_loop env s3 bucket key size range_size todo' (S j) (n + len data) in
          ((start, end_) :: reqs, r)
      end
  end.

Definition _range_read_one_trace (env : Env) (s3 : S3Client) (bucket : string)
    (ranges_per_obj range_size : Z) (key : string) : list (Z * Z) * Res Z :=
  match head_object s3 bucket key with
  | Raise e => ([], Raise e)
  | Ok size =>
      range_loop env s3 bucket key size range_size (Z.to_nat ranges_per_obj) 0 0
  end.

Definition _range_read_one (env : Env) (s3 : S3Client) (bucket : string)
    (ranges_per_obj range_size : Z) (key : string) : Res Z :=
  snd (_range_read_one_trace env s3 bucket ranges_per_obj range_size key).

Definition s3_range_read_many (env : Env) (s3 : S3Client) (bucket : string)
    (keys : list string) (ranges_per_obj range_size max_conc : Z) : M Stats :=
  t0 ← now env;
  total ← lift (run_pool env max_conc
                  (map (_range_read_one env s3 bucket ranges_per_obj range_size) keys));
  t1 ← now env;
  mret (mkStats ("S3 GET Range (" +:+ decimal_Z ranges_per_obj +:+ "x"
                   +:+ decimal_Z range_size +:+ "B per obj)")
                total (float_sub t1 t0)).

(** ** s3_delete_many *)

Definition DELETE_BATCH : nat := 1000.

(** One [delete_objects] call: the request goes out, then the reply
    decides whether the call raises. *)
Definition delete_objects_call (s3 : S3Client) (bucket : string)
    (objects : list string) (quiet : bool) : M unit := fun w =>
  (delete_objects s3 bucket objects quiet,
   emit (EvDeleteObjects bucket objects quiet) w).

Fixpoint delete_loop (s3 : S3Client) (bucket : string) (keys : list string)
    (starts : list nat) : M unit :=
  match starts with
  | [] => mret tt
  | i :: rest =>
      let chunk := slice keys i (i + DELETE_BATCH) in
      _ ← delete_objects_call s3 bucket chunk true;
      delete_loop s3 bucket keys rest
  end.

Definition s3_delete_many (s3 : S3Client) (bucket : string)
    (keys : list string) : M unit :=
  delete_loop s3 bucket keys (py_range3 0 (length keys) DELETE_BATCH).

(** The batch requests found in an output log, in order. *)
Definition delete_requests (evs : list Event) : list (list string * bool) :=
  omap (fun e => match e with
                 | EvDeleteObjects _ objs q => Some (objs, q)
                 | _ => None
                 end) evs.

Definition ceil_div (a b : nat) : nat := ((a + b - 1) / b)%nat.

(** ** write_local_file *)

(** A deterministic generator in the place of [random.Random]: a state
    type, the seeding function and [getrandbits(8)]. *)
Record Prng : Type := mkPrng {
  rng : Type;
  Random : Z -> rng;
  getrandbits8 : rng -> Byte.byte * rng
}.

(** A small generator to run the model on. *)
Definition lcg : Prng :=
  mkPrng Z (fun seed => seed)
    (fun s =>
       let s' := (s * 1103515245 + 12345) mod 2147483648 in
       (default x00 (Byte.of_N (Z.to_N ((s' / 65536) mod 256))), s')).

Section LocalFile.
Variable G : Prng.

(** [bytes(rnd.getrandbits(8) for _ in range(n))] *)
Fixpoint gen_block (n : nat) (rnd : rng G) : bytes * rng G :=
  match n with
  | O => ([], rnd)
  | S n' =>
      let '(b, rnd1) := getrandbits8 G rnd in
      let '(bs, rnd2) := gen_block n' rnd1 in
      (b :: bs, rnd2)
  end.

(** [while remaining > 0: ...]; [fuel] bounds the number of times the
    loop condition is evaluated, [None] is a run cut short by it. *)
Fixpoint write_loop (fuel : nat) (path : string) (chunk_bytes remaining : Z)
    (rnd : rng G) (w : World) : option World :=
  match fuel with
  | O => None
  | S fuel' =>
      if 0 <? remaining then
        let n := Z.min chunk_bytes remaining in
        let '(block, rnd') := gen_block (Z.to_nat n) rnd in
        write_loop fuel' path chunk_bytes (remaining - n) rnd'
                   (file_write path block w)
      else Some w
  end.

Definition write_local_file (fuel : nat) (path : string)
    (size_bytes chunk_bytes : Z) (w : World) : option World :=
  let rnd := Random G 0xC0FFEE in
  write_loop fuel path chunk_bytes size_bytes rnd (file_open path w).

(** ** main *)

Record Args : Type := mkArgs {
  a_bucket : string;
  a_prefix : string;
  a_keys : Z;
  a_obj_mib : Z;
  a_write_chunk_kib : Z;
  a_part_mib : Z;
  a_read_chunk_kib : Z;
  a_max_concurrency : Z;
  a_range_reads_per_obj : Z;
  a_range_kib : Z;
  a_keep : bool
}.

Definition local_path_of (args : Args) : string :=
  "/tmp/s3_microbench_" +:+ decimal_Z (a_obj_mib args) +:+ "MiB.bin".

(** The key list [main] works on. *)
Definition main_keys (prefix_arg : string) (n : Z) : list string :=
  let prefix := rstrip "/" prefix_arg in
  gen_object_keys prefix n.

Definition print_stats (s : Stats) : M unit :=
  m ← lift (mib s);
  r ← lift (mib_per_s s);
  print (LStats (label s) m (seconds s) r).

(** [main] from the line after [write_local_file] returns. *)
Definition main_after_gen (env : Env) (s3 : S3Client) (args : Args)
    (t0 : float) : M unit :=
  let bucket := a_bucket args in
  let keys := main_keys (a_prefix args) (a_keys args) in
  let obj_bytes := a_obj_mib args * 1024 * 1024 in
  let part_size := a_part_mib args * 1024 * 1024 in
  let read_chunk := a_read_chunk_kib args * 1024 in
  let range_size := a_range_kib args * 1024 in
  let local_path := local_path_of args in
  t1 ← now env;
  let gen_secs := float_sub t1 t0 in
  gen_mib ← lift (int_truediv obj_bytes (1024 * 1024));
  gen_rate ← lift (float_truediv gen_mib gen_secs);
  _ ← print (LLocalGen gen_mib gen_secs gen_rate);
  _ ← print (LUploading (a_keys args) (a_part_mib args) (a_max_concurrency args));
  put_stats ← s3_upload_many env s3 bucket keys local_path part_size
                (a_max_concurrency args);
  _ ← print_stats put_stats;
  _ ← print (LDownloading (a_read_chunk_kib args));
  let max_conc := a_max_concurrency args in
  get_stats ← s3_download_many env s3 bucket keys read_chunk max_conc;
  _ ← print_stats get_stats;
  _ ← (if 0 <? a_range_reads_per_obj args then
         _ ← print (LRangeReads (a_range_reads_per_obj args) (a_range_kib args));
         rr_stats ← s3_range_read_many env s3 bucket keys
                      (a_range_reads_per_obj args) range_size max_conc;
         print_stats rr_stats
       else mret tt);
  _ ← (if a_keep args then print LKeeping
       else
         _ ← print LCleaningUp;
         _ ← s3_delete_many s3 bucket keys;
         print LCleanupDone);
  try_except_OSError (os_remove local_path).

Definition main (fuel : nat) (env : Env) (s3 : S3Client) (args : Args)
    (w : World) : option (Res unit * World) :=
  let obj_bytes := a_obj_mib args * 1024 * 1024 in
  let write_chunk := a_write_chunk_kib args * 1024 in
  let local_path := local_path_of args in
  match (_ ← print (LGenerating local_path (a_obj_mib args)
                                (a_write_chunk_kib args));
         now env) w with
  | (Raise e, w1) => Some (Raise e, w1)
  | (Ok t0, w1) =>
      match write_local_file fuel local_path obj_bytes write_chunk w1 with
      | None => None
      | Some w2 => Some (main_after_gen env s3 args t0 w2)
      end
  end.
End LocalFile.

Definition empty_world : World := mkWorld ∅ 0 [].

(** [ceil(a / b)] on integers, for a positive [b]. *)
Definition ceil_div_Z (a b : Z) : Z := (a + b - 1) / b.

(** ** A concrete environment to run the model on *)

Definition zero_bytes (n : Z) : bytes := repeat x00 (Z.to_nat n).

(** A service that accepts every request; every object is ten bytes
    long and is streamed in reads of at most four bytes. *)
Definition s3_accept_all : S3Client :=
  mkS3Client
    (fun _ _ _ _ => Ok tt)
    (fun _ _ range =>
       match range with
       | None =>
           Ok (mkBody (Ok (zero_bytes 10))
                      (fun _ => [Ok (zero_bytes 4); Ok (zero_bytes 4); Ok (zero_bytes 2)]))
       | Some (start, end_) =>
           let n := Z.min end_ 9 - start + 1 in
           Ok (mkBody (Ok (zero_bytes n)) (fun _ => [Ok (zero_bytes n)]))
       end)
    (fun _ _ => Ok 10)
    (fun _ _ _ => Ok tt).

(** The same service, except that every request on one key fails. *)
Definition s3_failing_on (bad : string) : S3Client :=
  let fail {A} (key : string) (r : Res A) : Res A :=
    if String.eqb key bad then Raise (ClientError "AccessDenied") else r in
  mkS3Client
    (fun p b key cfg => fail key (upload_file s3_accept_all p b key cfg))
    (fun b key range => fail key (get_object s3_accept_all b key range))
    (fun b key => fail key (head_object s3_accept_all b key))
    (delete_objects s3_accept_all).

(** A clock that advances by one second per reading, futures that
    complete in reverse order of submission, and a random module that
    always draws the upper bound. *)
Definition env_reversed : Env :=
  mkEnv (fun n => S754_finite false (Pos.of_nat (S n)) 0)
        (fun futures => rev futures)
        (fun _ _ a b => b).

(** ** Reading the outcome of a pool of futures *)

Definition sum_Z (l : list Z) : Z := fold_right Z.add 0 l.

(** The exception of the first raising future in a list, if any. *)
Fixpoint first_raise (l : list (Res Z)) : option exn :=
  match l with
  | [] => None
  | Ok _ :: rest => first_raise rest
  | Raise e :: _ => Some e
  end.

(** A phase result reports the sum of the per-key byte counts: a Stats
    value only comes out when every key's operation returned a count,
    and its [bytes_total] is then the sum of these counts; and when they
    all return and the pool has a worker, a Stats value does come
    out. *)
Definition phase_sums (op : string -> Res Z) (keys : list string)
    (max_conc : Z) (result : Res Stats * World) : Prop :=
  (forall st w', result = (Ok st, w') ->
     exists counts, map op keys = map Ok counts /\ bytes_total st = sum_Z counts) /\
  (forall counts, 0 < max_conc -> map op keys = map Ok counts ->
     exists st w', result = (Ok st, w') /\ bytes_total st = sum_Z counts).

(** A phase result is an abort whenever some key's operation raises:
    the phase raises too, and with a pool that has a worker the
    exception is that of the first raising future in completion order,
    which one of the keys raised. *)
Definition phase_aborts (env : Env) (op : string -> Res Z) (keys : list string)
    (max_conc : Z) (result : Res Stats * World) : Prop :=
  forall key e, In key keys -> op key = Raise e ->
    exists e' w', result = (Raise e', w') /\
      (0 < max_conc ->
       first_raise (as_completed env (map op keys)) = Some e' /\
       exists key', In key' keys /\ op key' = Raise e').

Definition delete_event (bucket : string) (r : list string * bool) : Event :=
  EvDeleteObjects bucket (fst r) (snd r).

Definition batch_of (keys : list string) (i : nat) : list string * bool :=
  (slice keys i (i + DELETE_BATCH), true).

(** ** Reading the cleanup off an output log *)

(** The two cleanup actions: a batch deletion and the removal of a
    local file. *)
Definition is_cleanup (e : Event) : bool :=
  match e with
  | EvDeleteObjects _ _ _ | EvRemove _ => true
  | _ => false
  end.

Definition no_cleanup (evs : list Event) : Prop :=
  Forall (fun e => is_cleanup e = false) evs.

(** [w'] continues [w] with events that are not cleanup actions. *)
Definition extends (w w' : World) : Prop :=
  exists evs, out w' = out w ++ evs /\ no_cleanup evs.

(** A computation that performs no cleanup action, however it ends. *)
Definition quiet {A} (c : M A) : Prop :=
  forall w r w', c w = (r, w') -> extends w w'.

(** A run that keeps the uploaded objects: two keys, an empty object. *)
Definition args_keep : Args :=
  mkArgs "bucket" "bench/microbench/" 2 0 1024 8 1024 2 0 256 true.

Definition args_cleanup : Args :=
  mkArgs "bucket" "bench/microbench/" 2 0 1024 8 1024 2 0 256 false.

(** The cleanup actions of an output log, in order. *)
Definition cleanup_events (evs : list Event) : list Event :=
  List.filter is_cleanup evs.

(** The output log of a run of [main] that reached its end. *)
Definition run_events (r : option (Res unit * World)) : option (list Event) :=
  match r with
  | Some (Ok _, w') => Some (out w')
  | _ => None
  end.

(** The world a run leaves behind (the given one if it was cut short). *)
Definition world_after (w : World) (r : option (Res unit * World)) : World :=
  match r with
  | Some (_, w') => w'
  | None => w
  end.

(** The shape shared by the three phases once the clock readings are
    laid out: the pool decides between a Stats value and an abort. *)
Definition pool_phase (env : Env) (op : string -> Res Z) (keys : list string)
    (max_conc : Z) (lbl : string) (w : World) : Res Stats * World :=
  match run_pool env max_conc (map op keys) with
  | Ok total =>
      (Ok (mkStats lbl total
             (float_sub (perf_counter env (S (ticks w))) (perf_counter env (ticks w)))),
       mkWorld (fs w) (S (S (ticks w))) (out w))
  | Raise e => (Raise e, mkWorld (fs w) (S (ticks w)) (out w))
  end.

(** ** Further fixtures and log predicates *)

Definition is_remove (e : Event) : bool :=
  match e with
  | EvRemove _ => true
  | _ => false
  end.

Definition no_remove (evs : list Event) : Prop :=
  Forall (fun e => is_remove e = false) evs.

(** A computation that, however it ends, leaves the files alone and
    removes none. *)
Definition keeps_files {A} (c : M A) : Prop :=
  forall w r w', c w = (r, w') ->
    fs w' = fs w /\ exists evs, out w' = out w ++ evs /\ no_remove evs.

(** A computation that, when it raises, has left the files alone and
    removed none. *)
Definition fails_clean {A} (c : M A) : Prop :=
  forall w e w', c w = (Raise e, w') ->
    fs w' = fs w /\ exists evs, out w' = out w ++ evs /\ no_remove evs.

(** A service that rejects the deletion of every batch naming one
    given key. *)
Definition s3_reject_delete_of (bad : string) : S3Client :=
  mkS3Client
    (upload_file s3_accept_all)
    (get_object s3_accept_all)
    (head_object s3_accept_all)
    (fun _ objs _ =>
       if existsb (String.eqb bad) objs then Raise (ClientError "AccessDenied")
       else Ok tt).

(** The service accepts a batch request. *)
Definition accepted (s3 : S3Client) (bucket : string) (r : list string * bool) : Prop :=
  delete_objects s3 bucket (fst r) (snd r) = Ok tt.

(** A clock that does not advance. *)
Definition env_frozen : Env :=
  mkEnv (fun _ => S754_finite false 4503599627370496 (-52))
        (fun futures => futures)
        (fun _ _ a b => a).

(** The lines printed in an output log, in order. *)
Definition printed (evs : list Event) : list Line :=
  omap (fun e => match e with EvPrint l => Some l | _ => None end) evs.

(** The text a printed line starts with (for a Stats line, its label). *)
Definition line_name (l : Line) : string :=
  match l with
  | LGenerating _ _ _ => "Generating local file"
  | LLocalGen _ _ _ => "Local gen"
  | LUploading _ _ _ => "Uploading"
  | LStats lbl _ _ _ => lbl
  | LDownloading _ => "Downloading (stream)"
  | LRangeReads _ _ => "Range reads"
  | LKeeping => "Keeping objects (no cleanup)."
  | LCleaningUp => "Cleaning up uploaded objects..."
  | LCleanupDone => "Cleanup done."
  end.

(** [w'] continues [w] with events whose printed lines have the given
    names. *)
Definition logged (w w' : World) (names : list string) : Prop :=
  exists evs, out w' = out w ++ evs /\ map line_name (printed evs) = names.

(** The lines of the optional ranged-read block and of the cleanup
    block, as [main] decides them. *)
Definition range_block_names (args : Args) : list string :=
  if 0 <? a_range_reads_per_obj args then
    ["Range reads";
     "S3 GET Range (" +:+ decimal_Z (a_range_reads_per_obj args) +:+ "x"
       +:+ decimal_Z (a_range_kib args * 1024) +:+ "B per obj)"]
  else [].

Definition cleanup_block_names (args : Args) : list string :=
  if a_keep args then ["Keeping objects (no cleanup)."]
  else ["Cleaning up uploaded objects..."; "Cleanup done."].

(** * Properties *)

(** ** Strings *)

Lemma string_app_nil (t : string) : "" +:+ t = t.
Proof. reflexivity. Qed.

Lemma string_app_cons (a : ascii) (s t : string) :
  String a s +:+ t = String a (s +:+ t).
Proof. reflexivity. Qed.

Lemma string_length_app (s t : string) :
  String.length (s +:+ t) = (String.length s + String.length t)%nat.
Proof.
  induction s as [|a s IH]; [reflexivity|].
  rewrite string_app_cons. simpl. now rewrite IH.
Qed.

Lemma string_app_assoc (s t u : string) : (s +:+ t) +:+ u = s +:+ t +:+ u.
Proof.
  induction s as [|a s IH]; [reflexivity|].
  rewrite !string_app_cons. now rewrite IH.
Qed.

Lemma string_app_inv_tail (s1 s2 t : string) :
  s1 +:+ t = s2 +:+ t -> s1 = s2.
Proof.
  revert s2. induction s1 as [|a s1 IH]; intros [|b s2] H;
    rewrite ?string_app_cons, ?string_app_nil in H.
  - reflexivity.
  - apply (f_equal String.length) in H. simpl in H.
    rewrite string_length_app in H. lia.
  - apply (f_equal String.length) in H. simpl in H.
    rewrite string_length_app in H. lia.
  - injection H as -> H. f_equal. now apply IH.
Qed.

Lemma zeros_length (k : nat) : String.length (zeros k) = k.
Proof. induction k; simpl; congruence. Qed.

Lemma digits_value_zero (s : string) :
  digits_value (String "0" s) = digits_value s.
Proof.
  unfold digits_value. simpl.
  destruct (NilEmpty.uint_of_string s) as [d|]; reflexivity.
Qed.

Lemma digits_value_zeros (k : nat) (s : string) :
  digits_value (zeros k +:+ s) = digits_value s.
Proof.
  induction k as [|k IH]; [reflexivity|].
  simpl zeros. now rewrite string_app_cons, digits_value_zero.
Qed.

Lemma digits_value_decimal (i : nat) : digits_value (decimal i) = Some i.
Proof.
  unfold digits_value, decimal.
  rewrite NilEmpty.usu. f_equal. apply DecimalNat.Unsigned.of_to.
Qed.

Lemma digits_value_format_05d (i : nat) : digits_value (format_05d i) = Some i.
Proof.
  unfold format_05d. rewrite digits_value_zeros. apply digits_value_decimal.
Qed.

Lemma format_05d_length (i : nat) :
  String.length (format_05d i) = Nat.max 5 (String.length (decimal i)).
Proof.
  unfold format_05d. rewrite string_length_app, zeros_length. lia.
Qed.

Lemma format_05d_inj (i j : nat) : format_05d i = format_05d j -> i = j.
Proof.
  intros H. apply (f_equal digits_value) in H.
  rewrite !digits_value_format_05d in H. congruence.
Qed.

Lemma object_key_inj (prefix : string) (i j : nat) :
  object_key prefix i = object_key prefix j -> i = j.
Proof.
  unfold object_key. intros H.
  apply String.app_inj in H. apply (String.app_inj "/obj_") in H.
  apply string_app_inv_tail in H. now apply format_05d_inj.
Qed.

Lemma gen_object_keys_length (prefix : string) (n : Z) :
  length (gen_object_keys prefix n) = Z.to_nat n.
Proof. unfold gen_object_keys. now rewrite length_map, length_seq. Qed.

Lemma gen_object_keys_lookup (prefix : string) (n : Z) (i : nat) :
  (i < Z.to_nat n)%nat ->
  gen_object_keys prefix n !! i = Some (object_key prefix i).
Proof.
  intros Hi. unfold gen_object_keys.
  rewrite list_lookup_fmap, lookup_seq_lt by assumption. reflexivity.
Qed.

Lemma gen_object_keys_NoDup (prefix : string) (n : Z) :
  NoDup (gen_object_keys prefix n).
Proof.
  unfold gen_object_keys. apply NoDup_fmap_2.
  - intros i j. apply object_key_inj.
  - apply NoDup_seq.
Qed.

(** C6. For a prefix and a count [n >= 1], [gen_object_keys] returns
    exactly [n] pairwise distinct keys; the key at position [i] is
    [prefix/obj_<d>.bin] where [d] is the decimal writing of [i] padded
    with zeros on the left to five digits (longer only when [i] itself
    needs more), so every key starts with the prefix and the keys come
    in strictly ascending order of their index. *)
Theorem gen_object_keys_spec (prefix : string) (n : Z) :
  1 <= n ->
  let keys := gen_object_keys prefix n in
  len keys = n /\
  NoDup keys /\
  forall i : nat, Z.of_nat i < n ->
    exists (pad : nat) (d : string),
      keys !! i = Some (prefix +:+ "/obj_" +:+ d +:+ ".bin") /\
      d = zeros pad +:+ decimal i /\
      String.length d = Nat.max 5 (String.length (decimal i)) /\
      digits_value d = Some i.
Proof.
  intros Hn keys. split; [|split].
  - unfold len, keys. rewrite gen_object_keys_length. lia.
  - apply gen_object_keys_NoDup.
  - intros i Hi. exists (5 - String.length (decimal i))%nat, (format_05d i).
    split; [|split; [|split]].
    + unfold keys. rewrite gen_object_keys_lookup by lia. reflexivity.
    + reflexivity.
    + apply format_05d_length.
    + apply digits_value_format_05d.
Qed.

Lemma gen_object_keys_spec_witness :
  let keys := gen_object_keys "bench" 3 in
  len keys = 3 /\
  NoDup keys /\
  forall i : nat, Z.of_nat i < 3 ->
    exists (pad : nat) (d : string),
      keys !! i = Some ("bench" +:+ "/obj_" +:+ d +:+ ".bin") /\
      d = zeros pad +:+ decimal i /\
      String.length d = Nat.max 5 (String.length (decimal i)) /\
      digits_value d = Some i.
Proof. apply (gen_object_keys_spec "bench" 3). lia. Defined.

(** ** The prefix argument of main *)

Lemma rstrip_cons (c a : ascii) (s : string) :
  rstrip c (String a s) =
  match rstrip c s with
  | EmptyString => if Ascii.eqb a c then EmptyString else String a EmptyString
  | r => String a r
  end.
Proof. reflexivity. Qed.

Lemma rstrip_repeat_char (c : ascii) (k : nat) : rstrip c (repeat_char c k) = "".
Proof.
  induction k as [|k IH]; [reflexivity|].
  simpl repeat_char. rewrite rstrip_cons, IH. now rewrite Ascii.eqb_refl.
Qed.

Lemma rstrip_app_repeat_char (c : ascii) (s : string) (k : nat) :
  rstrip c (s +:+ repeat_char c k) = rstrip c s.
Proof.
  induction s as [|a s IH].
  - rewrite string_app_nil. apply rstrip_repeat_char.
  - rewrite string_app_cons, !rstrip_cons, IH. reflexivity.
Qed.

Lemma rstrip_decompose (c : ascii) (s : string) :
  exists m, s = rstrip c s +:+ repeat_char c m.
Proof.
  induction s as [|a s [m IH]].
  - exists O. reflexivity.
  - rewrite rstrip_cons. destruct (rstrip c s) as [|b r] eqn:E.
    + destruct (Ascii.eqb_spec a c) as [->|Hne].
      * exists (S m). rewrite string_app_nil in *. simpl. now f_equal.
      * exists m. rewrite string_app_cons. now f_equal.
    + exists m. rewrite string_app_cons. now f_equal.
Qed.

Lemma not_ends_with_empty (c : ascii) : ~ ends_with_char c "".
Proof.
  intros [s' H]. apply (f_equal String.length) in H.
  rewrite string_length_app in H. simpl in H. lia.
Qed.

Lemma rstrip_not_ends_with (c : ascii) (s : string) :
  ~ ends_with_char c (rstrip c s).
Proof.
  induction s as [|a s IH]; [apply not_ends_with_empty|].
  rewrite rstrip_cons. destruct (rstrip c s) as [|b r] eqn:E.
  - destruct (Ascii.eqb_spec a c) as [->|Hne]; [apply not_ends_with_empty|].
    intros [[|a' s'] H].
    + rewrite string_app_nil in H. congruence.
    + rewrite string_app_cons in H. injection H as _ H.
      apply (not_ends_with_empty c). now exists s'.
  - intros [[|a' s'] H].
    + rewrite string_app_nil in H. discriminate.
    + rewrite string_app_cons in H. injection H as _ H.
      apply IH. now exists s'.
Qed.

(** C9. [main] strips every trailing slash of the prefix argument
    before it generates the keys: the argument is the stripped stem
    followed by slashes only, the stem does not end in a slash, two
    arguments that differ only in the number of trailing slashes give
    the same key list, and no key has a second slash in front of its
    [/obj_<index>.bin] segment. *)
Theorem main_keys_trailing_slashes (base : string) (j k : nat) (n : Z) :
  let arg := base +:+ repeat_char "/" j in
  (exists (stem : string) (m : nat),
      arg = stem +:+ repeat_char "/" m /\
      ~ ends_with_char "/" stem /\
      main_keys arg n = gen_object_keys stem n) /\
  main_keys arg n = main_keys (base +:+ repeat_char "/" k) n /\
  (forall (i : nat) (key : string),
      main_keys arg n !! i = Some key ->
      ~ exists s, key = s +:+ "//obj_" +:+ format_05d i +:+ ".bin").
Proof.
  intros arg. split; [|split].
  - destruct (rstrip_decompose "/" arg) as [m Hm].
    exists (rstrip "/" arg), m. split; [exact Hm|].
    split; [apply rstrip_not_ends_with | reflexivity].
  - unfold main_keys, arg. now rewrite !rstrip_app_repeat_char.
  - intros i key Hkey [s Hs]. unfold main_keys in Hkey.
    assert (Hi : (i < Z.to_nat n)%nat).
    { apply lookup_lt_Some in Hkey.
      now rewrite gen_object_keys_length in Hkey. }
    rewrite gen_object_keys_lookup in Hkey by exact Hi.
    injection Hkey as Hkey. subst key. unfold object_key in Hs.
    change (s +:+ "//obj_" +:+ format_05d i +:+ ".bin")
      with (s +:+ String "/" "" +:+ "/obj_" +:+ format_05d i +:+ ".bin") in Hs.
    rewrite <- (string_app_assoc s) in Hs.
    apply string_app_inv_tail in Hs.
    apply (rstrip_not_ends_with "/" arg). now exists s.
Qed.

(** ** Batched deletion *)

Section Chunks.
Variable step : nat.
Hypothesis step_pos : (1 <= step)%nat.

Lemma ceil_div_zero : ceil_div 0 step = O.
Proof. unfold ceil_div. apply Nat.div_small. lia. Qed.

Lemma ceil_div_step (a : nat) :
  (0 < a)%nat -> ceil_div a step = S (ceil_div (a - step) step).
Proof.
  intros Ha. unfold ceil_div.
  destruct (Nat.le_gt_cases step a) as [Hle|Hgt].
  - replace (a + step - 1)%nat with ((a - step + step - 1) + 1 * step)%nat by lia.
    rewrite Nat.div_add by lia. lia.
  - replace (a - step)%nat with O by lia.
    rewrite (Nat.div_small (0 + step - 1)) by lia.
    replace (a + step - 1)%nat with ((a - 1) + 1 * step)%nat by lia.
    rewrite Nat.div_add by lia. rewrite Nat.div_small by lia. reflexivity.
Qed.

Lemma range_from_length (fuel i stop : nat) :
  (stop <= fuel + i)%nat ->
  length (range_from fuel i stop step) = ceil_div (stop - i) step.
Proof.
  revert i. induction fuel as [|fuel IH]; intros i Hfuel; simpl.
  - replace (stop - i)%nat with O by lia. now rewrite ceil_div_zero.
  - destruct (Nat.ltb_spec i stop) as [Hlt|Hge].
    + simpl. rewrite IH by lia.
      rewrite (ceil_div_step (stop - i)) by lia.
      do 2 f_equal. lia.
    + replace (stop - i)%nat with O by lia. now rewrite ceil_div_zero.
Qed.

Lemma range_from_slices {A} (l : list A) (fuel i : nat) :
  (length l <= fuel + i)%nat ->
  concat (map (fun i => slice l i (i + step)) (range_from fuel i (length l) step))
  = drop i l.
Proof.
  revert i. induction fuel as [|fuel IH]; intros i Hfuel; simpl.
  - symmetry. apply drop_ge. lia.
  - destruct (Nat.ltb_spec i (length l)) as [Hlt|Hge].
    + simpl. rewrite IH by lia. unfold slice.
      replace (i + step - i)%nat with step by lia.
      rewrite <- drop_drop. apply take_drop.
    + symmetry. apply drop_ge. lia.
Qed.

Lemma slice_length_le {A} (l : list A) (i : nat) :
  (length (slice l i (i + step)) <= step)%nat.
Proof. unfold slice. rewrite length_take. lia. Qed.
End Chunks.

Lemma delete_batch_pos : (1 <= DELETE_BATCH)%nat.
Proof. unfold DELETE_BATCH. lia. Qed.

Lemma delete_loop_all_accepted (s3 : S3Client) (bucket : string)
    (keys : list string) (starts : list nat) (w : World) :
  (forall objs q, delete_objects s3 bucket objs q = Ok tt) ->
  delete_loop s3 bucket keys starts w =
  (Ok tt, mkWorld (fs w) (ticks w)
            (out w ++ map (delete_event bucket) (map (batch_of keys) starts))).
Proof.
  intros Hok. revert w. induction starts as [|i rest IH]; intros w.
  - simpl. unfold mret, M_ret. rewrite app_nil_r. now destruct w.
  - simpl. unfold mbind, M_bind, delete_objects_call. rewrite Hok, IH.
    simpl. now rewrite <- app_assoc.
Qed.

(** C3. When the service accepts every request, [s3_delete_many] on a
    list of M keys sends exactly ceil(M/1000) [delete_objects] requests
    one after the other; every request names at most 1000 keys and has
    the quiet flag set, and the requests taken in order name every key
    once, in list order. *)
Theorem s3_delete_many_batches (s3 : S3Client) (bucket : string)
    (keys : list string) (w : World) :
  (forall objs q, delete_objects s3 bucket objs q = Ok tt) ->
  exists reqs : list (list string * bool),
    s3_delete_many s3 bucket keys w =
      (Ok tt, mkWorld (fs w) (ticks w) (out w ++ map (delete_event bucket) reqs)) /\
    length reqs = ceil_div (length keys) 1000 /\
    Forall (fun r => (length (fst r) <= 1000)%nat /\ snd r = true) reqs /\
    concat (map fst reqs) = keys.
Proof.
  intros Hok.
  exists (map (batch_of keys) (py_range3 0 (length keys) DELETE_BATCH)).
  split; [|split; [|split]].
  - unfold s3_delete_many. now apply delete_loop_all_accepted.
  - rewrite length_map. unfold py_range3.
    rewrite (range_from_length _ delete_batch_pos) by lia.
    now rewrite Nat.sub_0_r.
  - apply Forall_map, Forall_forall. intros i _. simpl. split; [|reflexivity].
    apply (slice_length_le _ delete_batch_pos).
  - rewrite map_map. unfold py_range3. simpl fst.
    rewrite (range_from_slices _ delete_batch_pos) by lia. reflexivity.
Qed.

Lemma s3_delete_many_batches_witness :
  exists reqs : list (list string * bool),
    s3_delete_many s3_accept_all "b" ["k0"; "k1"; "k2"] empty_world =
      (Ok tt, mkWorld (fs empty_world) (ticks empty_world)
                (out empty_world ++ map (delete_event "b") reqs)) /\
    length reqs = ceil_div (length ["k0"; "k1"; "k2"]) 1000 /\
    Forall (fun r => (length (fst r) <= 1000)%nat /\ snd r = true) reqs /\
    concat (map fst reqs) = ["k0"; "k1"; "k2"].
Proof.
  apply (s3_delete_many_batches s3_accept_all "b" ["k0"; "k1"; "k2"] empty_world).
  intros objs q. reflexivity.
Defined.

(** ** The local data generator *)

Lemma ceil_div_Z_bounds (a b : Z) :
  0 < b -> b * (ceil_div_Z a b - 1) < a <= b * ceil_div_Z a b.
Proof.
  intros Hb. unfold ceil_div_Z.
  pose proof (Z.div_mod (a + b - 1) b ltac:(lia)) as Hdm.
  pose proof (Z.mod_pos_bound (a + b - 1) b Hb) as Hm. lia.
Qed.

Lemma ceil_div_Z_step (a b : Z) :
  0 < a -> 0 < b ->
  ceil_div_Z a b = 1 + ceil_div_Z (Z.max 0 (a - Z.min b a)) b.
Proof.
  intros Ha Hb. unfold ceil_div_Z.
  destruct (Z_le_gt_dec b a) as [Hle|Hgt].
  - rewrite Z.min_l, Z.max_r by lia.
    replace (a + b - 1) with ((a - b + b - 1) + 1 * b) by lia.
    rewrite Z.div_add by lia. lia.
  - rewrite Z.min_r, Z.max_l by lia.
    rewrite (Z.div_small (0 + b - 1)) by lia.
    replace (a + b - 1) with ((a - 1) + 1 * b) by lia.
    rewrite Z.div_add by lia. rewrite Z.div_small by lia. reflexivity.
Qed.

Section LocalFileProps.
Variable G : Prng.

Lemma gen_block_app (a b : nat) (rnd : rng G) :
  gen_block G (a + b) rnd =
  let '(x, r1) := gen_block G a rnd in
  let '(y, r2) := gen_block G b r1 in
  (x ++ y, r2).
Proof.
  revert rnd. induction a as [|a IH]; intros rnd; simpl.
  - now destruct (gen_block G b rnd).
  - destruct (getrandbits8 G rnd) as [byte rnd1]. rewrite IH.
    destruct (gen_block G a rnd1) as [x r1].
    now destruct (gen_block G b r1).
Qed.

Lemma gen_block_length (n : nat) (rnd : rng G) :
  length (fst (gen_block G n rnd)) = n.
Proof.
  revert rnd. induction n as [|n IH]; intros rnd; simpl; [reflexivity|].
  destruct (getrandbits8 G rnd) as [byte rnd1]. specialize (IH rnd1).
  destruct (gen_block G n rnd1). simpl in *. now rewrite IH.
Qed.

(** What the loop does once it is given enough fuel: it appends the
    next [remaining] bytes of the generator to the file, in
    ceil(remaining / chunk_bytes) writes. *)
Lemma write_loop_spec (fuel : nat) (path : string) (chunk_bytes : Z) :
  1 <= chunk_bytes ->
  forall (remaining : Z) (rnd : rng G) (w : World) (c : bytes),
    Z.max 0 remaining < Z.of_nat fuel ->
    fs w !! path = Some c ->
    exists blocks : list bytes,
      write_loop G fuel path chunk_bytes remaining rnd w =
        Some (mkWorld (<[path := c ++ concat blocks]> (fs w)) (ticks w)
                      (out w ++ map (EvWrite path) blocks)) /\
      concat blocks = fst (gen_block G (Z.to_nat remaining) rnd) /\
      Z.of_nat (length blocks) = ceil_div_Z (Z.max 0 remaining) chunk_bytes.
Proof.
  intros Hchunk. induction fuel as [|fuel IH]; intros remaining rnd w c Hfuel Hc.
  - lia.
  - simpl. destruct (Z.ltb_spec 0 remaining) as [Hpos|Hle].
    + set (n := Z.min chunk_bytes remaining).
      assert (Hsplit : Z.to_nat remaining
                       = (Z.to_nat n + Z.to_nat (remaining - n))%nat) by lia.
      pose proof (gen_block_app (Z.to_nat n) (Z.to_nat (remaining - n)) rnd) as Happ.
      rewrite <- Hsplit in Happ.
      destruct (gen_block G (Z.to_nat n) rnd) as [block rnd'] eqn:Eb.
      destruct (IH (remaining - n) rnd' (file_write path block w) (c ++ block))
        as (blocks & Hrun & Hcat & Hlen).
      * lia.
      * unfold file_write. simpl. rewrite Hc. simpl. apply lookup_insert_eq.
      * exists (block :: blocks). split; [|split].
        -- rewrite Hrun. unfold file_write. simpl. rewrite Hc. simpl.
           rewrite insert_insert_eq, <- !app_assoc. reflexivity.
        -- simpl. rewrite Hcat, Happ.
           now destruct (gen_block G (Z.to_nat (remaining - n)) rnd').
        -- simpl length. rewrite Nat2Z.inj_succ, Hlen.
           rewrite (Z.max_r 0 remaining) by lia.
           rewrite (ceil_div_Z_step remaining chunk_bytes) by lia.
           fold n. lia.
    + exists []. replace (Z.to_nat remaining) with O by lia. simpl.
      rewrite !app_nil_r, insert_id by exact Hc.
      split; [now destruct w|]. split; [reflexivity|].
      rewrite Z.max_l by lia. unfold ceil_div_Z.
      rewrite Z.div_small; [reflexivity | lia].
Qed.

(** With a chunk size below one and bytes left to write, the loop
    never leaves: whatever the fuel, the run is cut short. *)
Lemma write_loop_diverges (fuel : nat) (path : string) (chunk_bytes : Z) :
  chunk_bytes < 1 ->
  forall (remaining : Z) (rnd : rng G) (w : World),
    0 < remaining ->
    write_loop G fuel path chunk_bytes remaining rnd w = None.
Proof.
  intros Hchunk. induction fuel as [|fuel IH]; intros remaining rnd w Hpos.
  - reflexivity.
  - simpl. destruct (Z.ltb_spec 0 remaining) as [_|Hle]; [|lia].
    destruct (gen_block G (Z.to_nat (Z.min chunk_bytes remaining)) rnd)
      as [block rnd'].
    apply IH. lia.
Qed.

Lemma write_local_file_spec (fuel : nat) (path : string)
    (size_bytes chunk_bytes : Z) (w : World) :
  1 <= chunk_bytes ->
  Z.max 0 size_bytes < Z.of_nat fuel ->
  exists blocks : list bytes,
    write_local_file G fuel path size_bytes chunk_bytes w =
      Some (mkWorld (<[path := concat blocks]> (fs w)) (ticks w)
                    (out w ++ EvOpen path :: map (EvWrite path) blocks)) /\
    concat blocks = fst (gen_block G (Z.to_nat size_bytes) (Random G 0xC0FFEE)) /\
    Z.of_nat (length blocks) = ceil_div_Z (Z.max 0 size_bytes) chunk_bytes.
Proof.
  intros Hchunk Hfuel. unfold write_local_file.
  destruct (write_loop_spec fuel path chunk_bytes Hchunk size_bytes
              (Random G 0xC0FFEE) (file_open path w) [])
    as (blocks & Hrun & Hcat & Hlen).
  - exact Hfuel.
  - unfold file_open. simpl. apply lookup_insert_eq.
  - exists blocks. split; [|split]; [|exact Hcat|exact Hlen].
    rewrite Hrun. unfold file_open. simpl.
    rewrite insert_insert_eq, <- app_assoc. reflexivity.
Qed.
End LocalFileProps.



(** C10. For [size_bytes >= 0] and [chunk_bytes >= 1],
    [write_local_file] ends after exactly ceil(size_bytes / chunk_bytes)
    writes, which follow the opening of the file in the output log.  The
    bound on the chunk size is needed: with bytes to write and a chunk
    size below one the loop does not end, whatever fuel it is given. *)
Theorem write_local_file_terminates (G : Prng) (path : string)
    (size_bytes chunk_bytes : Z) (w : World) :
  (0 <= size_bytes -> 1 <= chunk_bytes ->
   forall fuel : nat, (Z.to_nat size_bytes < fuel)%nat ->
     exists (w' : World) (blocks : list bytes),
       write_local_file G fuel path size_bytes chunk_bytes w = Some w' /\
       out w' = out w ++ EvOpen path :: map (EvWrite path) blocks /\
       Z.of_nat (length blocks) = ceil_div_Z size_bytes chunk_bytes) /\
  (0 < size_bytes -> chunk_bytes < 1 ->
   forall fuel : nat,
     write_local_file G fuel path size_bytes chunk_bytes w = None).
Proof.
  split.
  - intros Hsize Hchunk fuel Hfuel.
    destruct (write_local_file_spec G fuel path size_bytes chunk_bytes w)
      as (blocks & Hrun & _ & Hlen); [lia | lia |].
    eexists _, blocks. split; [exact Hrun|]. split; [reflexivity|].
    rewrite Hlen. f_equal. lia.
  - intros Hsize Hchunk fuel. unfold write_local_file.
    now apply write_loop_diverges.
Qed.

Lemma write_local_file_terminates_witness :
  (forall fuel : nat, (Z.to_nat 10 < fuel)%nat ->
     exists (w' : World) (blocks : list bytes),
       write_local_file lcg fuel "f" 10 4 empty_world = Some w' /\
       out w' = out empty_world ++ EvOpen "f" :: map (EvWrite "f") blocks /\
       Z.of_nat (length blocks) = ceil_div_Z 10 4) /\
  (forall fuel : nat, write_local_file lcg fuel "f" 10 0 empty_world = None).
Proof.
  split.
  - apply (write_local_file_terminates lcg "f" 10 4 empty_world); lia.
  - apply (write_local_file_terminates lcg "f" 10 0 empty_world); lia.
Defined.

(** ** Throughput *)

Lemma float_le0_not_gt0 (x : float) : float_le0 x = true -> float_gt0 x = false.
Proof.
  unfold float_le0, float_gt0, SFleb, SFltb, fzero.
  destruct x as [s|s| |s m e]; simpl; try reflexivity; destruct s;
    simpl; congruence.
Qed.

Lemma float_gt0_not_zero (x : float) : float_gt0 x = true -> SFeqb x fzero = false.
Proof.
  unfold float_gt0, SFeqb, SFltb, fzero.
  destruct x as [s|s| |s m e]; simpl; try congruence; destruct s;
    simpl; congruence.
Qed.

Lemma int_truediv_raises (a b : Z) (e : exn) :
  b <> 0 -> int_truediv a b = Raise e -> e = OverflowError.
Proof.
  intros Hb. unfold int_truediv.
  destruct (Z.eqb_spec b 0) as [|_]; [contradiction|].
  destruct (is_infinite _); congruence.
Qed.

(** C4. The throughput of a Stats value is the quotient
    [(bytes_total / 1048576) / seconds] when [seconds > 0], where the
    division by [seconds] does not fail (the only error such a value can
    give is the overflow of the integer division itself); when
    [seconds <= 0], zero and negative values alike, it is positive
    infinity and nothing is raised. *)
Theorem mib_per_s_spec (s : Stats) :
  (float_gt0 (seconds s) = true ->
     mib_per_s s = spec_throughput (bytes_total s) (seconds s) /\
     forall e, mib_per_s s = Raise e -> e = OverflowError) /\
  (float_le0 (seconds s) = true -> mib_per_s s = Ok finf).
Proof.
  split.
  - intros Hgt. unfold mib_per_s. rewrite Hgt. split; [reflexivity|].
    intros e. unfold mib.
    destruct (int_truediv (bytes_total s) (1024 * 1024)) as [m|e'] eqn:Em; simpl.
    + unfold float_truediv. now rewrite (float_gt0_not_zero _ Hgt).
    + intros [= <-]. eapply int_truediv_raises; [|exact Em]. lia.
  - intros Hle. unfold mib_per_s. now rewrite (float_le0_not_gt0 _ Hle).
Qed.

Lemma mib_per_s_spec_witness :
  (mib_per_s (mkStats "put" 134217728 (S754_finite false 4503599627370496 (-51)))
   = spec_throughput 134217728 (S754_finite false 4503599627370496 (-51))) /\
  mib_per_s (mkStats "put" 134217728 (S754_zero false)) = Ok finf /\
  mib_per_s (mkStats "put" 134217728 (S754_finite true 4503599627370496 (-51)))
  = Ok finf.
Proof.
  split; [|split].
  - apply (mib_per_s_spec
             (mkStats "put" 134217728 (S754_finite false 4503599627370496 (-51)))).
    reflexivity.
  - apply (mib_per_s_spec (mkStats "put" 134217728 (S754_zero false))).
    reflexivity.
  - apply (mib_per_s_spec
             (mkStats "put" 134217728 (S754_finite true 4503599627370496 (-51)))).
    reflexivity.
Defined.

(** 128 MiB in two seconds is 64 MiB/s. *)
Example mib_per_s_example :
  mib_per_s (mkStats "put" 134217728 (S754_finite false 4503599627370496 (-51)))
  = Ok (S754_finite false 4503599627370496 (-46)).
Proof. vm_compute. reflexivity. Qed.

(** ** Collecting the futures of a phase *)

Lemma sum_Z_perm (l l' : list Z) : Permutation l l' -> sum_Z l = sum_Z l'.
Proof.
  induction 1 as [|x l l' _ IH|x y l|l l' l'' _ IH1 _ IH2]; simpl; lia.
Qed.

Lemma collect_ok (l : list (Res Z)) (t v : Z) :
  collect l t = Ok v <-> exists vals, l = map Ok vals /\ v = t + sum_Z vals.
Proof.
  revert t. induction l as [|[n|e] l IH]; intros t; simpl.
  - split.
    + intros [= <-]. exists []. simpl. split; [reflexivity | lia].
    + intros ([|x vals] & Hl & ->); [simpl; f_equal; lia | discriminate].
  - rewrite IH. split.
    + intros (vals & -> & ->). exists (n :: vals). simpl. split; [reflexivity | lia].
    + intros ([|x vals] & Hl & ->); [discriminate|].
      injection Hl as -> ->. exists vals. simpl. split; [reflexivity | lia].
  - split; [discriminate|]. intros ([|x vals] & Hl & _); discriminate.
Qed.

Lemma collect_raise (l : list (Res Z)) (t : Z) (e : exn) :
  collect l t = Raise e <-> first_raise l = Some e.
Proof.
  revert t. induction l as [|[n|e'] l IH]; intros t; simpl.
  - split; discriminate.
  - apply IH.
  - split; congruence.
Qed.

Lemma first_raise_In (l : list (Res Z)) (e : exn) :
  first_raise l = Some e -> In (Raise e) l.
Proof.
  induction l as [|[n|e'] l IH]; simpl; [discriminate | auto |].
  intros [= ->]. now left.
Qed.

Lemma first_raise_None (l : list (Res Z)) :
  first_raise l = None -> exists vals, l = map Ok vals.
Proof.
  induction l as [|[n|e'] l IH]; simpl.
  - exists []. reflexivity.
  - intros H. destruct (IH H) as [vals ->]. now exists (n :: vals).
  - discriminate.
Qed.

Section Pool.
Variable env : Env.
Hypothesis fair : fair_scheduler env.

Lemma run_pool_ok (max_conc : Z) (futures : list (Res Z)) (total : Z) :
  run_pool env max_conc futures = Ok total ->
  exists counts, futures = map Ok counts /\ total = sum_Z counts.
Proof.
  unfold run_pool. destruct (max_conc <=? 0); [discriminate|].
  intros H. apply collect_ok in H as (vals & Hvals & ->).
  pose proof (fair futures) as Hperm. rewrite Hvals in Hperm.
  apply Permutation_sym, Permutation_map_inv in Hperm as (counts & -> & Hp).
  exists counts. split; [reflexivity|]. rewrite (sum_Z_perm _ _ Hp). lia.
Qed.

Lemma run_pool_all_ok (max_conc : Z) (counts : list Z) :
  0 < max_conc ->
  run_pool env max_conc (map Ok counts) = Ok (sum_Z counts).
Proof.
  intros Hc. unfold run_pool.
  destruct (Z.leb_spec max_conc 0) as [|_]; [lia|].
  pose proof (fair (map Ok counts)) as Hperm.
  apply Permutation_map_inv in Hperm as (vals & Hvals & Hp).
  apply collect_ok. exists vals. split; [exact Hvals|].
  rewrite (sum_Z_perm _ _ Hp). lia.
Qed.

Lemma run_pool_raise (max_conc : Z) (futures : list (Res Z)) :
  (exists e, In (Raise e) futures) ->
  exists e', run_pool env max_conc futures = Raise e' /\
    (0 < max_conc ->
     first_raise (as_completed env futures) = Some e' /\ In (Raise e') futures).
Proof.
  intros [e He]. unfold run_pool.
  destruct (Z.leb_spec max_conc 0) as [Hle|Hgt].
  - exists ValueError. split; [reflexivity | lia].
  - destruct (first_raise (as_completed env futures)) as [e'|] eqn:Ef.
    + exists e'. split; [now apply collect_raise|]. intros _.
      split; [reflexivity|].
      apply (Permutation_in _ (fair futures)). now apply first_raise_In.
    + apply first_raise_None in Ef as [vals Hvals].
      apply (Permutation_in _ (Permutation_sym (fair futures))) in He.
      rewrite Hvals in He. apply in_map_iff in He as (x & Hx & _). discriminate.
Qed.
End Pool.

(** ** The three concurrent phases *)

Lemma s3_upload_many_run (env : Env) (s3 : S3Client) (bucket : string)
    (keys : list string) (local_path : string) (part_size max_conc : Z)
    (w : World) (content : bytes) :
  0 < part_size -> 0 < max_conc ->
  fs w !! local_path = Some content ->
  s3_upload_many env s3 bucket keys local_path part_size max_conc w =
  pool_phase env
    (_upload_one s3 bucket local_path
       (mkTransferConfig part_size part_size max_conc true) (len content))
    keys max_conc "S3 PUT (upload_file)" w.
Proof.
  intros Hpart Hconc Hc.
  unfold s3_upload_many, pool_phase, mbind, M_bind, getsize, now, lift,
    TransferConfig_new.
  destruct (Z.leb_spec part_size 0) as [|_]; [lia|].
  destruct (Z.leb_spec max_conc 0) as [|_]; [lia|].
  rewrite Hc. simpl. now destruct (run_pool _ _ _).
Qed.

(** A part size or a concurrency that is not above zero stops the
    upload phase at its first statement. *)
Lemma s3_upload_many_rejected (env : Env) (s3 : S3Client) (bucket : string)
    (keys : list string) (local_path : string) (part_size max_conc : Z)
    (w : World) :
  part_size <= 0 \/ max_conc <= 0 ->
  s3_upload_many env s3 bucket keys local_path part_size max_conc w
  = (Raise ValueError, w).
Proof.
  intros Hbad.
  unfold s3_upload_many, mbind, M_bind, lift, TransferConfig_new.
  destruct (Z.leb_spec part_size 0) as [|Hp]; [reflexivity|].
  destruct (Z.leb_spec max_conc 0) as [|Hc]; [reflexivity | lia].
Qed.

Lemma s3_download_many_run (env : Env) (s3 : S3Client) (bucket : string)
    (keys : list string) (read_chunk max_conc : Z) (w : World) :
  s3_download_many env s3 bucket keys read_chunk max_conc w =
  pool_phase env (_download_one s3 bucket read_chunk) keys max_conc
    "S3 GET (stream read)" w.
Proof.
  unfold s3_download_many, pool_phase, mbind, M_bind, now, lift. simpl.
  now destruct (run_pool _ _ _).
Qed.

Lemma s3_range_read_many_run (env : Env) (s3 : S3Client) (bucket : string)
    (keys : list string) (ranges_per_obj range_size max_conc : Z) (w : World) :
  s3_range_read_many env s3 bucket keys ranges_per_obj range_size max_conc w =
  pool_phase env (_range_read_one env s3 bucket ranges_per_obj range_size)
    keys max_conc
    ("S3 GET Range (" +:+ decimal_Z ranges_per_obj +:+ "x"
       +:+ decimal_Z range_size +:+ "B per obj)") w.
Proof.
  unfold s3_range_read_many, pool_phase, mbind, M_bind, now, lift. simpl.
  now destruct (run_pool _ _ _).
Qed.

Lemma pool_phase_sums (env : Env) (op : string -> Res Z) (keys : list string)
    (max_conc : Z) (lbl : string) (w : World) :
  fair_scheduler env ->
  phase_sums op keys max_conc (pool_phase env op keys max_conc lbl w).
Proof.
  intros fair. unfold pool_phase. split.
  - intros st w' H.
    destruct (run_pool env max_conc (map op keys)) as [total|e] eqn:Er;
      [|discriminate].
    injection H as <- _.
    destruct (run_pool_ok env fair _ _ _ Er) as (counts & Hc & ->).
    now exists counts.
  - intros counts Hconc Hc. rewrite Hc, (run_pool_all_ok env fair) by exact Hconc.
    eexists _, _. split; reflexivity.
Qed.

Lemma pool_phase_aborts (env : Env) (op : string -> Res Z) (keys : list string)
    (max_conc : Z) (lbl : string) (w : World) :
  fair_scheduler env ->
  phase_aborts env op keys max_conc (pool_phase env op keys max_conc lbl w).
Proof.
  intros fair key e Hin Hop. unfold pool_phase.
  destruct (run_pool_raise env fair max_conc (map op keys)) as (e' & Hr & He').
  - exists e. rewrite <- Hop. now apply in_map.
  - rewrite Hr. eexists e', _. split; [reflexivity|].
    intros Hc. destruct (He' Hc) as [Hfirst Hin'].
    split; [exact Hfirst|].
    apply in_map_iff in Hin' as (key' & Hk & Hkin). now exists key'.
Qed.

Lemma upload_phase_sums (env : Env) (s3 : S3Client) (bucket : string)
    (keys : list string) (local_path : string) (part_size max_conc : Z)
    (w : World) (content : bytes) :
  fair_scheduler env ->
  0 < part_size ->
  fs w !! local_path = Some content ->
  phase_sums
    (_upload_one s3 bucket local_path
       (mkTransferConfig part_size part_size max_conc true) (len content))
    keys max_conc
    (s3_upload_many env s3 bucket keys local_path part_size max_conc w).
Proof.
  intros fair Hpart Hc.
  destruct (Z_le_gt_dec max_conc 0) as [Hbad|Hconc].
  - rewrite s3_upload_many_rejected by now right. split.
    + intros st w' H. discriminate.
    + intros counts Hpos. lia.
  - rewrite (s3_upload_many_run env s3 bucket keys local_path part_size
               max_conc w content) by (assumption || lia).
    now apply pool_phase_sums.
Qed.

Lemma upload_phase_aborts (env : Env) (s3 : S3Client) (bucket : string)
    (keys : list string) (local_path : string) (part_size max_conc : Z)
    (w : World) (content : bytes) :
  fair_scheduler env ->
  0 < part_size ->
  fs w !! local_path = Some content ->
  phase_aborts env
    (_upload_one s3 bucket local_path
       (mkTransferConfig part_size part_size max_conc true) (len content))
    keys max_conc
    (s3_upload_many env s3 bucket keys local_path part_size max_conc w).
Proof.
  intros fair Hpart Hc.
  destruct (Z_le_gt_dec max_conc 0) as [Hbad|Hconc].
  - rewrite s3_upload_many_rejected by now right.
    intros key e _ _. exists ValueError, w. split; [reflexivity | lia].
  - rewrite (s3_upload_many_run env s3 bucket keys local_path part_size
               max_conc w content) by (assumption || lia).
    now apply pool_phase_aborts.
Qed.

Lemma rev_fair (env : Env) :
  (forall l, as_completed env l = rev l) -> fair_scheduler env.
Proof. intros H l. rewrite H. apply Permutation_sym, Permutation_rev. Qed.

(** C7. In each of the three phases, whatever order the scheduler
    yields the futures in, the [bytes_total] of the phase's Stats is
    the sum of the byte counts that the per-key operation returned for
    the keys of the list.  (The upload phase has a Stats to report only
    for a part size above zero: otherwise the transfer configuration is
    refused before anything is uploaded.) *)
Theorem phase_total_order_independent (env : Env) (s3 : S3Client)
    (bucket : string) (keys : list string) (max_conc : Z) (w : World) :
  fair_scheduler env ->
  (forall local_path part_size,
      (forall content,
          0 < part_size ->
          fs w !! local_path = Some content ->
          phase_sums
            (_upload_one s3 bucket local_path
               (mkTransferConfig part_size part_size max_conc true) (len content))
            keys max_conc
            (s3_upload_many env s3 bucket keys local_path part_size max_conc w)) /\
      (part_size <= 0 ->
       s3_upload_many env s3 bucket keys local_path part_size max_conc w
       = (Raise ValueError, w))) /\
  (forall read_chunk,
      phase_sums (_download_one s3 bucket read_chunk) keys max_conc
        (s3_download_many env s3 bucket keys read_chunk max_conc w)) /\
  (forall ranges_per_obj range_size,
      phase_sums (_range_read_one env s3 bucket ranges_per_obj range_size)
        keys max_conc
        (s3_range_read_many env s3 bucket keys ranges_per_obj range_size
           max_conc w)).
Proof.
  intros fair. split; [|split].
  - intros local_path part_size. split.
    + intros content Hpart Hc. now apply upload_phase_sums.
    + intros Hbad. apply s3_upload_many_rejected. now left.
  - intros read_chunk. rewrite s3_download_many_run. now apply pool_phase_sums.
  - intros ranges_per_obj range_size. rewrite s3_range_read_many_run.
    now apply pool_phase_sums.
Qed.

Lemma phase_total_order_independent_witness :
  phase_sums
    (_upload_one s3_accept_all "b" "f" (mkTransferConfig 8 8 2 true)
       (len (zero_bytes 5)))
    ["k0"; "k1"] 2
    (s3_upload_many env_reversed s3_accept_all "b" ["k0"; "k1"] "f" 8 2
       (mkWorld {[ "f" := zero_bytes 5 ]} 0 [])) /\
  phase_sums (_download_one s3_accept_all "b" 4) ["k0"; "k1"] 2
    (s3_download_many env_reversed s3_accept_all "b" ["k0"; "k1"]
       4 2 (mkWorld {[ "f" := zero_bytes 5 ]} 0 [])).
Proof.
  destruct (phase_total_order_independent env_reversed s3_accept_all "b"
              ["k0"; "k1"] 2 (mkWorld {[ "f" := zero_bytes 5 ]} 0 []))
    as (Hup & Hdown & _).
  - apply rev_fair. reflexivity.
  - split.
    + apply (Hup "f" 8); [lia | reflexivity].
    + apply Hdown.
Defined.

(** C8. In each of the three phases, when the operation of some key
    raises, the phase raises as well and returns no Stats: the exception
    is the one met first when the futures are collected, and it was
    raised by the operation of one of the keys.  (With a part size that
    is not above zero the upload phase starts no operation at all: it
    raises ValueError at once, and returns no Stats either.) *)
Theorem phase_error_propagates (env : Env) (s3 : S3Client)
    (bucket : string) (keys : list string) (max_conc : Z) (w : World) :
  fair_scheduler env ->
  (forall local_path part_size,
      (forall content,
          0 < part_size ->
          fs w !! local_path = Some content ->
          phase_aborts env
            (_upload_one s3 bucket local_path
               (mkTransferConfig part_size part_size max_conc true) (len content))
            keys max_conc
            (s3_upload_many env s3 bucket keys local_path part_size max_conc w)) /\
      (part_size <= 0 ->
       s3_upload_many env s3 bucket keys local_path part_size max_conc w
       = (Raise ValueError, w))) /\
  (forall read_chunk,
      phase_aborts env (_download_one s3 bucket read_chunk) keys max_conc
        (s3_download_many env s3 bucket keys read_chunk max_conc w)) /\
  (forall ranges_per_obj range_size,
      phase_aborts env (_range_read_one env s3 bucket ranges_per_obj range_size)
        keys max_conc
        (s3_range_read_many env s3 bucket keys ranges_per_obj range_size
           max_conc w)).
Proof.
  intros fair. split; [|split].
  - intros local_path part_size. split.
    + intros content Hpart Hc. now apply upload_phase_aborts.
    + intros Hbad. apply s3_upload_many_rejected. now left.
  - intros read_chunk. rewrite s3_download_many_run. now apply pool_phase_aborts.
  - intros ranges_per_obj range_size. rewrite s3_range_read_many_run.
    now apply pool_phase_aborts.
Qed.

Lemma phase_error_propagates_witness :
  phase_aborts env_reversed
    (_upload_one (s3_failing_on "k1") "b" "f" (mkTransferConfig 8 8 2 true)
       (len (zero_bytes 5)))
    ["k0"; "k1"; "k2"] 2
    (s3_upload_many env_reversed (s3_failing_on "k1") "b" ["k0"; "k1"; "k2"]
       "f" 8 2 (mkWorld {[ "f" := zero_bytes 5 ]} 0 [])) /\
  phase_aborts env_reversed (_download_one (s3_failing_on "k1") "b" 4)
    ["k0"; "k1"; "k2"] 2
    (s3_download_many env_reversed (s3_failing_on "k1") "b" ["k0"; "k1"; "k2"]
       4 2 (mkWorld {[ "f" := zero_bytes 5 ]} 0 [])).
Proof.
  destruct (phase_error_propagates env_reversed (s3_failing_on "k1") "b"
              ["k0"; "k1"; "k2"] 2 (mkWorld {[ "f" := zero_bytes 5 ]} 0 []))
    as (Hup & Hdown & _).
  - apply rev_fair. reflexivity.
  - split.
    + apply (Hup "f" 8); [lia | reflexivity].
    + apply Hdown.
Defined.

Example download_phase_failing_key :
  fst (s3_download_many env_reversed (s3_failing_on "k1") "b" ["k0"; "k1"; "k2"]
         4 2 empty_world)
  = Raise (ClientError "AccessDenied").
Proof. reflexivity. Qed.

Example download_phase_total :
  option_map bytes_total
    (match fst (s3_download_many env_reversed s3_accept_all "b" ["k0"; "k1"; "k2"]
                  4 2 empty_world) with
     | Ok st => Some st
     | Raise _ => None
     end)
  = Some 30.
Proof. reflexivity. Qed.

(** ** Ranged reads *)

Lemma range_start_bounds (env : Env) (key : string) (j : nat) (size range_size : Z) :
  randint_in_range env ->
  let start := range_start env key j size range_size in
  (range_size < size -> 0 <= start <= size - range_size) /\
  (size <= range_size -> start = 0).
Proof.
  intros Hrand start. unfold start, range_start.
  destruct (Z.leb_spec size range_size) as [Hle|Hgt].
  - split; [lia | reflexivity].
  - split; [|lia]. intros _. apply Hrand. lia.
Qed.

Lemma range_loop_requests (env : Env) (s3 : S3Client) (bucket key : string)
    (size range_size : Z) (todo j : nat) (n : Z) :
  randint_in_range env ->
  let run := range_loop env s3 bucket key size range_size todo j n in
  Forall (fun r =>
            (range_size < size -> 0 <= fst r <= size - range_size) /\
            (size <= range_size -> fst r = 0) /\
            snd r = fst r + range_size - 1)
         (fst run) /\
  (is_ok (snd run) = true -> length (fst run) = todo).
Proof.
  intros Hrand. revert j n.
  induction todo as [|todo IH]; intros j n; simpl.
  - split; [constructor | reflexivity].
  - pose proof (range_start_bounds env key j size range_size Hrand) as [Hgt Hle].
    destruct (get_object s3 bucket key _ ≫= _) as [data|e]. 
    + specialize (IH (S j) (n + len data)).
      destruct (range_loop env s3 bucket key size range_size todo (S j)
                  (n + len data)) as [reqs r].
      simpl in *. destruct IH as [IHreq IHlen]. split.
      * constructor; [|exact IHreq]. simpl. auto.
      * intros Hok. now rewrite IHlen.
    + simpl. split; [|discriminate].
      constructor; [|constructor]. simpl. auto.
Qed.

(** C2. Whatever size the head request reports and whatever value,
    within its bounds, [random.randint] returns, every ranged read sent
    by [_range_read_one] starts at an offset [start] with
    [0 <= start <= size - range_size] when [size > range_size] and
    [start = 0] otherwise, and asks for the bytes [start] to
    [start + range_size - 1], that is [range_size] of them; a call that
    returns a count has sent [ranges_per_obj] such reads. *)
Theorem range_read_offsets (env : Env) (s3 : S3Client) (bucket : string)
    (ranges_per_obj range_size : Z) (key : string) (size : Z) :
  randint_in_range env ->
  head_object s3 bucket key = Ok size ->
  let run := _range_read_one_trace env s3 bucket ranges_per_obj range_size key in
  Forall (fun r =>
            (range_size < size -> 0 <= fst r <= size - range_size) /\
            (size <= range_size -> fst r = 0) /\
            snd r = fst r + range_size - 1 /\
            snd r - fst r + 1 = range_size)
         (fst run) /\
  (is_ok (snd run) = true -> length (fst run) = Z.to_nat ranges_per_obj).
Proof.
  intros Hrand Hhead run. unfold run, _range_read_one_trace. rewrite Hhead.
  destruct (range_loop_requests env s3 bucket key size range_size
              (Z.to_nat ranges_per_obj) 0 0 Hrand) as [Hreq Hlen].
  split; [|exact Hlen].
  eapply Forall_impl; [exact Hreq|].
  intros [start end_]. simpl. intros (H1 & H2 & H3). repeat split; auto; lia.
Qed.

Lemma range_read_offsets_witness :
  let run := _range_read_one_trace env_reversed s3_accept_all "b" 3 4 "k0" in
  Forall (fun r =>
            (4 < 10 -> 0 <= fst r <= 10 - 4) /\
            (10 <= 4 -> fst r = 0) /\
            snd r = fst r + 4 - 1 /\
            snd r - fst r + 1 = 4)
         (fst run) /\
  (is_ok (snd run) = true -> length (fst run) = Z.to_nat 3).
Proof.
  apply (range_read_offsets env_reversed s3_accept_all "b" 3 4 "k0" 10).
  - intros key j a b Hab. simpl. lia.
  - reflexivity.
Defined.

Example range_read_one_requests :
  _range_read_one_trace env_reversed s3_accept_all "b" 3 4 "k0"
  = ([(6, 9); (6, 9); (6, 9)], Ok 12).
Proof. reflexivity. Qed.

Example range_read_one_small_object :
  _range_read_one_trace env_reversed s3_accept_all "b" 2 64 "k0"
  = ([(0, 63); (0, 63)], Ok 20).
Proof. reflexivity. Qed.

(** ** The driver and its cleanup *)

Lemma bind_ok_inv {A B} (c : M A) (f : A -> M B) (w w'' : World) (b : B) :
  (c ≫= f) w = (Ok b, w'') ->
  exists a w', c w = (Ok a, w') /\ f a w' = (Ok b, w'').
Proof.
  unfold mbind, M_bind. destruct (c w) as [[a|e] w1]; [eauto | discriminate].
Qed.

Lemma extends_refl (w : World) : extends w w.
Proof. exists []. split; [now rewrite app_nil_r | constructor]. Qed.

Lemma extends_trans (w1 w2 w3 : World) :
  extends w1 w2 -> extends w2 w3 -> extends w1 w3.
Proof.
  intros (e1 & H1 & Hq1) (e2 & H2 & Hq2). exists (e1 ++ e2). split.
  - now rewrite H2, H1, app_assoc.
  - now apply Forall_app.
Qed.

Lemma extends_same_out (w w' : World) : out w' = out w -> extends w w'.
Proof. intros H. exists []. split; [now rewrite app_nil_r | constructor]. Qed.

Lemma quiet_ret {A} (a : A) : quiet (mret a : M A).
Proof. intros w r w' [= <- <-]. apply extends_refl. Qed.

Lemma quiet_bind {A B} (c : M A) (f : A -> M B) :
  quiet c -> (forall a, quiet (f a)) -> quiet (c ≫= f).
Proof.
  intros Hc Hf w r w'. unfold mbind, M_bind.
  destruct (c w) as [[a|e] w1] eqn:Ec; intros H.
  - eapply extends_trans; [eapply Hc, Ec | eapply Hf, H].
  - injection H as <- <-. eapply Hc, Ec.
Qed.

Lemma quiet_lift {A} (r : Res A) : quiet (lift r).
Proof. intros w r' w' [= <- <-]. apply extends_refl. Qed.

Lemma quiet_now (env : Env) : quiet (now env).
Proof. intros w r w' [= <- <-]. now apply extends_same_out. Qed.

Lemma quiet_getsize (path : string) : quiet (getsize path).
Proof.
  intros w r w'. unfold getsize.
  destruct (fs w !! path); intros [= <- <-]; apply extends_refl.
Qed.

Lemma quiet_print (l : Line) : quiet (print l).
Proof.
  intros w r w' [= <- <-]. exists [EvPrint l]. split; [reflexivity|].
  now repeat constructor.
Qed.

Create HintDb quiet.
#[local] Hint Resolve quiet_ret quiet_lift quiet_now quiet_getsize quiet_print : quiet.

Ltac quiet_steps :=
  repeat first [ apply quiet_bind; [|intro] | solve [auto with quiet] ].

Lemma quiet_print_stats (s : Stats) : quiet (print_stats s).
Proof. unfold print_stats. quiet_steps. Qed.

Lemma quiet_upload (env : Env) (s3 : S3Client) (bucket : string)
    (keys : list string) (local_path : string) (part_size max_conc : Z) :
  quiet (s3_upload_many env s3 bucket keys local_path part_size max_conc).
Proof. unfold s3_upload_many. quiet_steps. Qed.

Lemma quiet_download (env : Env) (s3 : S3Client) (bucket : string)
    (keys : list string) (read_chunk max_conc : Z) :
  quiet (s3_download_many env s3 bucket keys read_chunk max_conc).
Proof. unfold s3_download_many. quiet_steps. Qed.

Lemma quiet_range_read (env : Env) (s3 : S3Client) (bucket : string)
    (keys : list string) (ranges_per_obj range_size max_conc : Z) :
  quiet (s3_range_read_many env s3 bucket keys ranges_per_obj range_size max_conc).
Proof. unfold s3_range_read_many. quiet_steps. Qed.

#[local] Hint Resolve quiet_print_stats quiet_upload quiet_download
  quiet_range_read : quiet.

Lemma write_loop_extends (G : Prng) (fuel : nat) (path : string)
    (chunk_bytes remaining : Z) (rnd : rng G) (w w' : World) :
  write_loop G fuel path chunk_bytes remaining rnd w = Some w' -> extends w w'.
Proof.
  revert remaining rnd w. induction fuel as [|fuel IH]; intros remaining rnd w;
    simpl; [discriminate|].
  destruct (0 <? remaining).
  - destruct (gen_block G _ rnd) as [block rnd']. intros H.
    eapply extends_trans; [|eapply IH, H].
    exists [EvWrite path block]. split; [reflexivity | now repeat constructor].
  - intros [= <-]. apply extends_refl.
Qed.

Lemma write_local_file_extends (G : Prng) (fuel : nat) (path : string)
    (size_bytes chunk_bytes : Z) (w w' : World) :
  write_local_file G fuel path size_bytes chunk_bytes w = Some w' -> extends w w'.
Proof.
  unfold write_local_file. intros H.
  eapply extends_trans; [|eapply write_loop_extends, H].
  exists [EvOpen path]. split; [reflexivity | now repeat constructor].
Qed.

(** A deletion that returns normally has sent every batch. *)
Lemma delete_loop_ok (s3 : S3Client) (bucket : string) (keys : list string)
    (starts : list nat) (w w' : World) :
  delete_loop s3 bucket keys starts w = (Ok tt, w') ->
  out w' = out w ++ map (delete_event bucket) (map (batch_of keys) starts).
Proof.
  revert w. induction starts as [|i rest IH]; intros w; simpl.
  - intros [= <-]. now rewrite app_nil_r.
  - intros H. apply bind_ok_inv in H as ([] & w1 & Hcall & H).
    apply IH in H. rewrite H. unfold delete_objects_call in Hcall.
    injection Hcall as _ <-. simpl. now rewrite <- app_assoc.
Qed.

Lemma s3_delete_many_ok (s3 : S3Client) (bucket : string) (keys : list string)
    (w w' : World) :
  s3_delete_many s3 bucket keys w = (Ok tt, w') ->
  exists reqs, out w' = out w ++ map (delete_event bucket) reqs /\
               concat (map fst reqs) = keys.
Proof.
  intros H. apply delete_loop_ok in H.
  exists (map (batch_of keys) (py_range3 0 (length keys) DELETE_BATCH)).
  split; [exact H|].
  rewrite map_map. unfold py_range3. simpl fst.
  rewrite (range_from_slices _ delete_batch_pos) by lia. reflexivity.
Qed.

Lemma try_remove_ok (path : string) (w w' : World) (r : Res unit) :
  try_except_OSError (os_remove path) w = (r, w') ->
  r = Ok tt /\ out w' = out w ++ [EvRemove path] /\ fs w' !! path = None.
Proof.
  unfold try_except_OSError, os_remove.
  destruct (fs w !! path) as [c|] eqn:Ef; simpl; intros [= <- <-]; simpl.
  - split; [reflexivity|]. split; [reflexivity|]. apply lookup_delete_eq.
  - split; [reflexivity|]. split; [reflexivity|]. exact Ef.
Qed.

Lemma quiet_extends {A} (c : M A) (w w' : World) (r : Res A) :
  quiet c -> c w = (r, w') -> extends w w'.
Proof. intros Hq H. exact (Hq w r w' H). Qed.

(** Peel the first statement off a run that ended normally, when that
    statement performs no cleanup. *)
Ltac peel H Hext :=
  let Hc := fresh "Hc" in
  let Hext' := fresh "Hext" in
  apply bind_ok_inv in H as (? & ? & Hc & H);
  apply quiet_extends in Hc;
  [ pose proof (extends_trans _ _ _ Hext Hc) as Hext'; clear Hext Hc;
    rename Hext' into Hext
  | try solve [auto with quiet] ].

(** C1 (as the code has it). On a run of [main] that reaches its end,
    the removal of the local file is the last action, whatever the keep
    flag, and the file is gone afterwards; what the flag decides is the
    batch deletion alone: with keep set no deletion request is sent,
    without it the requests sent just before the removal name every
    generated key; nothing before that point is a cleanup action. *)
Theorem main_cleanup (G : Prng) (fuel : nat) (env : Env) (s3 : S3Client)
    (args : Args) (w w' : World) :
  main G fuel env s3 args w = Some (Ok tt, w') ->
  exists before cleanup : list Event,
    out w' = out w ++ before ++ cleanup ++ [EvRemove (local_path_of args)] /\
    no_cleanup before /\
    fs w' !! local_path_of args = None /\
    (a_keep args = true -> cleanup = [EvPrint LKeeping]) /\
    (a_keep args = false ->
       exists reqs,
         cleanup = EvPrint LCleaningUp
                     :: map (delete_event (a_bucket args)) reqs
                     ++ [EvPrint LCleanupDone] /\
         concat (map fst reqs) = main_keys (a_prefix args) (a_keys args)).
Proof.
  unfold main. intros H.
  destruct ((_ ← print _; now env) w) as [[t0|e] w1] eqn:E0;
    [|discriminate].
  assert (Hext : extends w w1).
  { eapply quiet_extends; [|exact E0]. quiet_steps. }
  clear E0.
  destruct (write_local_file G fuel _ _ _ w1) as [w2|] eqn:Ew; [|discriminate].
  apply write_local_file_extends in Ew.
  pose proof (extends_trans _ _ _ Hext Ew) as Hext2. clear Hext Ew.
  injection H as H. unfold main_after_gen in H. cbv zeta in H.
  do 10 peel H Hext2.
  peel H Hext2.
  2:{ destruct (0 <? a_range_reads_per_obj args); quiet_steps. }
  apply bind_ok_inv in H as ([] & wc & Hclean & H).
  apply try_remove_ok in H as (_ & Hout & Hfs).
  destruct Hext2 as (before & Hbefore & Hquiet).
  destruct (a_keep args) eqn:Ekeep.
  - injection Hclean as <-. exists before, [EvPrint LKeeping].
    split; [|split; [exact Hquiet | split; [exact Hfs | split;
      [reflexivity | discriminate]]]].
    rewrite Hout. simpl. rewrite Hbefore, <- !app_assoc. reflexivity.
  - apply bind_ok_inv in Hclean as ([] & wa & Hp1 & Hclean).
    apply bind_ok_inv in Hclean as ([] & wb & Hdel & Hp2).
    injection Hp1 as <-. injection Hp2 as <-.
    apply s3_delete_many_ok in Hdel as (reqs & Hreqs & Hcover).
    exists before,
      (EvPrint LCleaningUp :: map (delete_event (a_bucket args)) reqs
         ++ [EvPrint LCleanupDone]).
    split; [|split; [exact Hquiet | split; [exact Hfs | split;
      [discriminate | intros _; exists reqs; split; [reflexivity | exact Hcover]]]]].
    rewrite Hout. simpl. rewrite Hreqs. simpl. rewrite Hbefore, <- !app_assoc.
    reflexivity.
Qed.

Lemma main_cleanup_witness :
  let w' := world_after empty_world
              (main lcg 5 env_reversed s3_accept_all args_cleanup empty_world) in
  exists before cleanup : list Event,
    out w' = out empty_world ++ before ++ cleanup
               ++ [EvRemove (local_path_of args_cleanup)] /\
    no_cleanup before /\
    fs w' !! local_path_of args_cleanup = None /\
    (a_keep args_cleanup = true -> cleanup = [EvPrint LKeeping]) /\
    (a_keep args_cleanup = false ->
       exists reqs,
         cleanup = EvPrint LCleaningUp
                     :: map (delete_event (a_bucket args_cleanup)) reqs
                     ++ [EvPrint LCleanupDone] /\
         concat (map fst reqs)
         = main_keys (a_prefix args_cleanup) (a_keys args_cleanup)).
Proof.
  apply (main_cleanup lcg 5 env_reversed s3_accept_all args_cleanup empty_world).
  vm_compute. reflexivity.
Defined.

(** With the keep flag set the run still removes the local file: the
    cleanup is not suppressed as a whole. *)
Lemma keep_still_removes_local_file :
  a_keep args_keep = true /\
  option_map cleanup_events
    (run_events (main lcg 5 env_reversed s3_accept_all args_keep empty_world))
  = Some [EvRemove "/tmp/s3_microbench_0MiB.bin"].
Proof. split; [reflexivity | vm_compute; reflexivity]. Qed.

Example cleanup_run_deletes_and_removes :
  option_map cleanup_events
    (run_events (main lcg 5 env_reversed s3_accept_all args_cleanup empty_world))
  = Some [EvDeleteObjects "bucket"
            ["bench/microbench/obj_00000.bin"; "bench/microbench/obj_00001.bin"]
            true;
          EvRemove "/tmp/s3_microbench_0MiB.bin"].
Proof. vm_compute. reflexivity. Qed.

Example gen_object_keys_two :
  gen_object_keys "prefix" 2 = ["prefix/obj_00000.bin"; "prefix/obj_00001.bin"].
Proof. reflexivity. Qed.

Example rstrip_example : rstrip "/" "bench/microbench//" = "bench/microbench".
Proof. reflexivity. Qed.

Example py_range3_example : py_range3 0 2500 1000 = [0; 1000; 2000]%nat.
Proof. vm_compute. reflexivity. Qed.

(** * Further properties of the code *)

(** ** Streaming reads *)

Lemma read_loop_chunks (chunks : list bytes) (tail : list (Res bytes)) (n : Z) :
  Forall (fun c => c <> []) chunks ->
  read_loop (map Ok chunks ++ tail) n = read_loop tail (n + len (concat chunks)).
Proof.
  intros Hne. revert n. induction Hne as [|c chunks Hc _ IH]; intros n; simpl.
  - f_equal. unfold len. simpl. lia.
  - destruct c as [|b c]; [contradiction|].
    rewrite IH. f_equal. unfold len. rewrite !length_app. simpl. lia.
Qed.

(** X1. [_download_one] counts the bytes of the reads that come before
    the first empty read and stops there: what the stream would deliver
    after an empty read is not counted, a stream that just ends counts
    in full, and a read that raises makes the whole download raise,
    whatever was counted so far. *)
Theorem download_one_counts (s3 : S3Client) (bucket key : string)
    (read_chunk : Z) (body : Body) (chunks : list bytes) :
  get_object s3 bucket key None = Ok body ->
  Forall (fun c => c <> []) chunks ->
  (read_amt body read_chunk = map Ok chunks ->
   _download_one s3 bucket read_chunk key = Ok (len (concat chunks))) /\
  (forall rest, read_amt body read_chunk = map Ok chunks ++ Ok [] :: rest ->
   _download_one s3 bucket read_chunk key = Ok (len (concat chunks))) /\
  (forall e rest, read_amt body read_chunk = map Ok chunks ++ Raise e :: rest ->
   _download_one s3 bucket read_chunk key = Raise e).
Proof.
  intros Hget Hne. unfold _download_one. rewrite Hget.
  change (Ok body ≫= (fun obj => read_loop (read_amt obj read_chunk) 0))
    with (read_loop (read_amt body read_chunk) 0).
  split; [|split].
  - intros ->. rewrite <- (app_nil_r (map Ok chunks)).
    now rewrite read_loop_chunks.
  - intros rest ->. now rewrite read_loop_chunks.
  - intros e rest ->. now rewrite read_loop_chunks.
Qed.

Lemma download_one_counts_witness :
  _download_one s3_accept_all "b" 4 "k0"
  = Ok (len (concat [zero_bytes 4; zero_bytes 4; zero_bytes 2])).
Proof.
  apply (download_one_counts s3_accept_all "b" "k0" 4
           (mkBody (Ok (zero_bytes 10))
              (fun _ => [Ok (zero_bytes 4); Ok (zero_bytes 4); Ok (zero_bytes 2)]))
           [zero_bytes 4; zero_bytes 4; zero_bytes 2]).
  - reflexivity.
  - repeat constructor; discriminate.
  - reflexivity.
Defined.

(** ** What the upload phase reports *)

Lemma sum_Z_const (A : Type) (l : list A) (v : Z) :
  sum_Z (map (fun _ => v) l) = len l * v.
Proof.
  unfold len. induction l as [|x l IH]; simpl; [lia|].
  rewrite IH. lia.
Qed.

Lemma upload_phase_total (env : Env) (s3 : S3Client) (bucket : string)
    (keys : list string) (local_path : string) (part_size max_conc : Z)
    (w : World) (content : bytes) :
  fair_scheduler env ->
  0 < part_size ->
  0 < max_conc ->
  fs w !! local_path = Some content ->
  (forall key, In key keys ->
     upload_file s3 local_path bucket key
       (mkTransferConfig part_size part_size max_conc true) = Ok tt) ->
  exists st,
    s3_upload_many env s3 bucket keys local_path part_size max_conc w
    = (Ok st, mkWorld (fs w) (S (S (ticks w))) (out w)) /\
    bytes_total st = len keys * len content.
Proof.
  intros fair Hpart Hconc Hfile Hup.
  rewrite (s3_upload_many_run _ _ _ _ _ _ _ _ _ Hpart Hconc Hfile).
  unfold pool_phase.
  assert (Hmap : map (_upload_one s3 bucket local_path
                        (mkTransferConfig part_size part_size max_conc true)
                        (len content)) keys
                 = map Ok (map (fun _ => len content) keys)).
  { rewrite map_map. apply map_ext_in. intros key Hin.
    unfold _upload_one. now rewrite (Hup key Hin). }
  rewrite Hmap, (run_pool_all_ok env fair) by exact Hconc.
  eexists. split; [reflexivity|]. simpl. apply sum_Z_const.
Qed.

(** X2. The upload phase does not measure what was sent: with a part
    size and a concurrency above zero, when every upload succeeds it
    reports the size of the local file once per key, that is
    [len(keys) * file_size] bytes, and it leaves the files and the
    output log as they were. *)
Theorem upload_reports_file_size_per_key (env : Env) (s3 : S3Client)
    (bucket : string) (keys : list string) (local_path : string)
    (part_size max_conc : Z) (w : World) (content : bytes) :
  fair_scheduler env ->
  0 < part_size ->
  0 < max_conc ->
  fs w !! local_path = Some content ->
  (forall key, In key keys ->
     upload_file s3 local_path bucket key
       (mkTransferConfig part_size part_size max_conc true) = Ok tt) ->
  exists st w',
    s3_upload_many env s3 bucket keys local_path part_size max_conc w = (Ok st, w') /\
    bytes_total st = len keys * len content /\
    fs w' = fs w /\ out w' = out w.
Proof.
  intros fair Hpart Hconc Hfile Hup.
  destruct (upload_phase_total env s3 bucket keys local_path part_size max_conc
              w content fair Hpart Hconc Hfile Hup) as (st & Hrun & Htotal).
  eexists st, _. split; [exact Hrun|]. split; [exact Htotal|].
  split; reflexivity.
Qed.

Lemma upload_reports_file_size_per_key_witness :
  exists st w',
    s3_upload_many env_reversed s3_accept_all "b" ["k0"; "k1"; "k2"] "f" 8 2
      (mkWorld {[ "f" := zero_bytes 5 ]} 0 []) = (Ok st, w') /\
    bytes_total st = len ["k0"; "k1"; "k2"] * len (zero_bytes 5) /\
    fs w' = fs (mkWorld {[ "f" := zero_bytes 5 ]} 0 []) /\
    out w' = out (mkWorld {[ "f" := zero_bytes 5 ]} 0 []).
Proof.
  apply (upload_reports_file_size_per_key env_reversed s3_accept_all "b"
           ["k0"; "k1"; "k2"] "f" 8 2
           (mkWorld {[ "f" := zero_bytes 5 ]} 0 []) (zero_bytes 5)).
  - apply rev_fair. reflexivity.
  - lia.
  - lia.
  - reflexivity.
  - intros key _. reflexivity.
Defined.

(** ** Throughput on values that are not ordered with zero *)

(** X3. The throughput of a Stats value never fails with a division by
    zero, whatever its [seconds]: every value that is not above zero,
    NaN included, gives positive infinity. *)
Theorem mib_per_s_never_divides_by_zero (s : Stats) :
  mib_per_s s <> Raise ZeroDivisionError /\
  (float_gt0 (seconds s) = false -> mib_per_s s = Ok finf) /\
  (seconds s = S754_nan -> mib_per_s s = Ok finf).
Proof.
  assert (Hfalse : float_gt0 (seconds s) = false -> mib_per_s s = Ok finf).
  { intros H. unfold mib_per_s. now rewrite H. }
  split; [|split].
  - destruct (float_gt0 (seconds s)) eqn:Hgt.
    + unfold mib_per_s, mib. rewrite Hgt.
      destruct (int_truediv (bytes_total s) (1024 * 1024)) as [m|e] eqn:Em.
      * change (Ok m ≫= (fun m => float_truediv m (seconds s)))
          with (float_truediv m (seconds s)).
        unfold float_truediv. now rewrite (float_gt0_not_zero _ Hgt).
      * change (Raise e ≫= (fun m => float_truediv m (seconds s)))
          with (@Raise float e).
        intros [= ->]. eapply int_truediv_raises in Em; [discriminate | lia].
    + rewrite (Hfalse eq_refl). discriminate.
  - exact Hfalse.
  - intros Hnan. apply Hfalse. now rewrite Hnan.
Qed.

Lemma mib_per_s_never_divides_by_zero_witness :
  mib_per_s (mkStats "get" 4096 S754_nan) = Ok finf.
Proof.
  apply (mib_per_s_never_divides_by_zero (mkStats "get" 4096 S754_nan)).
  reflexivity.
Defined.

(** ** Key lists of different lengths *)

(** X4. The key list for a smaller count is the beginning of the key
    list for a larger one under the same prefix (a count of zero or
    below gives no key at all), so runs that share a prefix work on the
    same first objects. *)
Theorem gen_object_keys_prefix_of_larger (prefix : string) (n m : Z) :
  n <= m ->
  gen_object_keys prefix n = take (Z.to_nat n) (gen_object_keys prefix m) /\
  (n <= 0 -> gen_object_keys prefix n = []).
Proof.
  intros Hnm. unfold gen_object_keys. split.
  - change (map (object_key prefix) (seq 0 (Z.to_nat m)))
      with (object_key prefix <$> seq 0 (Z.to_nat m)).
    rewrite <- fmap_take, take_seq.
    replace (Z.to_nat n `min` Z.to_nat m)%nat with (Z.to_nat n) by lia.
    reflexivity.
  - intros Hn. replace (Z.to_nat n) with O by lia. reflexivity.
Qed.

Lemma gen_object_keys_prefix_of_larger_witness :
  gen_object_keys "bench" 2 = take (Z.to_nat 2) (gen_object_keys "bench" 5) /\
  (2 <= 0 -> gen_object_keys "bench" 2 = []).
Proof. apply (gen_object_keys_prefix_of_larger "bench" 2 5). lia. Defined.

(** ** What a ranged-read worker returns *)

Lemma range_loop_full_ranges (env : Env) (s3 : S3Client) (bucket key : string)
    (size range_size : Z) (todo j : nat) (n : Z) :
  randint_in_range env ->
  range_size <= size ->
  (forall start, 0 <= start <= size - range_size ->
     exists data,
       (resp ← get_object s3 bucket key (Some (start, start + range_size - 1));
        read_all resp) = Ok data /\ len data = range_size) ->
  snd (range_loop env s3 bucket key size range_size todo j n)
  = Ok (n + Z.of_nat todo * range_size).
Proof.
  intros Hrand Hfit Hfull. revert j n. induction todo as [|todo IH]; intros j n.
  - simpl. f_equal. lia.
  - cbn [range_loop].
    destruct (range_start_bounds env key j size range_size Hrand) as [Hgt Hle].
    destruct (Hfull (range_start env key j size range_size))
      as (data & -> & Hlen).
    { destruct (Z_lt_le_dec range_size size) as [Hlt|Hge].
      - now apply Hgt.
      - rewrite (Hle Hge). lia. }
    specialize (IH (S j) (n + len data)).
    destruct (range_loop env s3 bucket key size range_size todo (S j)
                (n + len data)) as [reqs r].
    simpl in *. rewrite IH. f_equal. lia.
Qed.

(** X5. With a count of zero or below, [_range_read_one] sends no
    ranged read and returns zero.  For an object at least as long as a
    range, when the service returns [range_size] bytes for every range
    that lies within the object, it returns
    [ranges_per_obj * range_size] bytes, whatever offsets are drawn. *)
Theorem range_read_one_full_ranges (env : Env) (s3 : S3Client) (bucket : string)
    (ranges_per_obj range_size : Z) (key : string) (size : Z) :
  head_object s3 bucket key = Ok size ->
  (ranges_per_obj <= 0 ->
   _range_read_one_trace env s3 bucket ranges_per_obj range_size key = ([], Ok 0)) /\
  (randint_in_range env ->
   range_size <= size ->
   (forall start, 0 <= start <= size - range_size ->
      exists data,
        (resp ← get_object s3 bucket key (Some (start, start + range_size - 1));
         read_all resp) = Ok data /\ len data = range_size) ->
   _range_read_one env s3 bucket ranges_per_obj range_size key
   = Ok (Z.max 0 ranges_per_obj * range_size)).
Proof.
  intros Hhead. unfold _range_read_one, _range_read_one_trace.
  rewrite Hhead. split.
  - intros Hle. replace (Z.to_nat ranges_per_obj) with O by lia. reflexivity.
  - intros Hrand Hfit Hfull.
    rewrite (range_loop_full_ranges env s3 bucket key size range_size _ _ _
               Hrand Hfit Hfull).
    f_equal. lia.
Qed.

Lemma range_read_one_full_ranges_witness :
  _range_read_one_trace env_reversed s3_accept_all "b" 0 4 "k0" = ([], Ok 0) /\
  _range_read_one env_reversed s3_accept_all "b" 3 4 "k0" = Ok (Z.max 0 3 * 4).
Proof.
  split.
  - apply (range_read_one_full_ranges env_reversed s3_accept_all "b" 0 4 "k0" 10).
    + reflexivity.
    + lia.
  - apply (range_read_one_full_ranges env_reversed s3_accept_all "b" 3 4 "k0" 10).
    + reflexivity.
    + intros key j a b Hab. simpl. lia.
    + lia.
    + intros start Hstart.
      exists (zero_bytes (Z.min (start + 4 - 1) 9 - start + 1)). split.
      * reflexivity.
      * unfold len, zero_bytes. rewrite repeat_length. lia.
Defined.

(** ** The writes of the local data generator *)

Lemma write_loop_blocks (G : Prng) (fuel : nat) (path : string) (chunk_bytes : Z) :
  1 <= chunk_bytes ->
  forall (remaining : Z) (rnd : rng G) (w w' : World),
    write_loop G fuel path chunk_bytes remaining rnd w = Some w' ->
    exists blocks : list bytes,
      out w' = out w ++ map (EvWrite path) blocks /\
      Forall (fun b => 1 <= len b <= chunk_bytes) blocks /\
      (forall i b, blocks !! i = Some b -> (S i < length blocks)%nat ->
                   len b = chunk_bytes) /\
      (remaining <= 0 -> blocks = []).
Proof.
  intros Hchunk. induction fuel as [|fuel IH]; intros remaining rnd w w';
    simpl; [discriminate|].
  destruct (Z.ltb_spec 0 remaining) as [Hpos|Hle].
  - pose proof (gen_block_length G (Z.to_nat (Z.min chunk_bytes remaining)) rnd)
      as Hblen.
    destruct (gen_block G (Z.to_nat (Z.min chunk_bytes remaining)) rnd)
      as [block rnd'].
    simpl in Hblen. intros Hrun.
    destruct (IH _ _ _ _ Hrun) as (blocks & Hout & Hall & Hfull & Hnil).
    exists (block :: blocks). split; [|split; [|split]].
    + rewrite Hout. simpl. now rewrite <- app_assoc.
    + constructor; [unfold len; lia | exact Hall].
    + intros [|i] b Hb Hi; simpl in Hb, Hi.
      * injection Hb as <-.
        destruct (Z_le_gt_dec remaining chunk_bytes) as [Hsmall|Hbig].
        -- rewrite Hnil in Hi by lia. simpl in Hi. lia.
        -- unfold len. lia.
      * apply (Hfull i b Hb). lia.
    + lia.
  - intros [= <-]. exists []. split; [now rewrite app_nil_r|].
    split; [constructor|]. split; [|reflexivity].
    intros i b Hb. discriminate.
Qed.

(** X6. With a chunk size of at least one, [write_local_file] never
    passes more than [chunk_bytes] bytes to a single [write] and never
    an empty block; every write but the last one carries exactly
    [chunk_bytes] bytes. *)
Theorem write_local_file_block_sizes (G : Prng) (fuel : nat) (path : string)
    (size_bytes chunk_bytes : Z) (w : World) :
  1 <= chunk_bytes ->
  Z.max 0 size_bytes < Z.of_nat fuel ->
  exists (w' : World) (blocks : list bytes),
    write_local_file G fuel path size_bytes chunk_bytes w = Some w' /\
    out w' = out w ++ EvOpen path :: map (EvWrite path) blocks /\
    Forall (fun b => 1 <= len b <= chunk_bytes) blocks /\
    (forall i b, blocks !! i = Some b -> (S i < length blocks)%nat ->
                 len b = chunk_bytes).
Proof.
  intros Hchunk Hfuel.
  destruct (write_local_file_spec G fuel path size_bytes chunk_bytes w
              Hchunk Hfuel) as (blocks0 & Hrun & _).
  pose proof Hrun as Hrun'. unfold write_local_file in Hrun'.
  destruct (write_loop_blocks G fuel path chunk_bytes Hchunk _ _ _ _ Hrun')
    as (blocks & Hout & Hall & Hfull & _).
  eexists _, blocks. split; [exact Hrun|].
  split; [|split; [exact Hall | exact Hfull]].
  rewrite Hout. unfold file_open. simpl. now rewrite <- app_assoc.
Qed.

Lemma write_local_file_block_sizes_witness :
  exists (w' : World) (blocks : list bytes),
    write_local_file lcg 11 "f" 10 4 empty_world = Some w' /\
    out w' = out empty_world ++ EvOpen "f" :: map (EvWrite "f") blocks /\
    Forall (fun b => 1 <= len b <= 4) blocks /\
    (forall i b, blocks !! i = Some b -> (S i < length blocks)%nat -> len b = 4).
Proof.
  apply (write_local_file_block_sizes lcg 11 "f" 10 4 empty_world); lia.
Defined.

(** X7. [write_local_file] replaces the file: with a chunk size of at
    least one, the content it leaves at the path does not depend on
    what the file system held before (an existing file of that name is
    overwritten, not appended to), and every other file is left as it
    was. *)
Theorem write_local_file_overwrites (G : Prng) (fuel : nat) (path : string)
    (size_bytes chunk_bytes : Z) (w1 w2 : World) :
  1 <= chunk_bytes ->
  Z.max 0 size_bytes < Z.of_nat fuel ->
  exists (w1' w2' : World) (content : bytes),
    write_local_file G fuel path size_bytes chunk_bytes w1 = Some w1' /\
    write_local_file G fuel path size_bytes chunk_bytes w2 = Some w2' /\
    fs w1' !! path = Some content /\
    fs w2' !! path = Some content /\
    (forall p, p <> path -> fs w1' !! p = fs w1 !! p) /\
    ticks w1' = ticks w1.
Proof.
  intros Hchunk Hfuel.
  destruct (write_local_file_spec G fuel path size_bytes chunk_bytes w1
              Hchunk Hfuel) as (b1 & Hrun1 & Hcat1 & _).
  destruct (write_local_file_spec G fuel path size_bytes chunk_bytes w2
              Hchunk Hfuel) as (b2 & Hrun2 & Hcat2 & _).
  eexists _, _, (concat b1). split; [exact Hrun1|]. split; [exact Hrun2|].
  simpl. rewrite !lookup_insert_eq, Hcat1, Hcat2.
  split; [reflexivity|]. split; [reflexivity|]. split; [|reflexivity].
  intros p Hp. now apply lookup_insert_ne.
Qed.

Lemma write_local_file_overwrites_witness :
  exists (w1' w2' : World) (content : bytes),
    write_local_file lcg 11 "f" 10 4 empty_world = Some w1' /\
    write_local_file lcg 11 "f" 10 4
      (mkWorld {[ "f" := zero_bytes 99 ]} 0 []) = Some w2' /\
    fs w1' !! "f" = Some content /\
    fs w2' !! "f" = Some content /\
    (forall p, p <> "f" -> fs w1' !! p = fs empty_world !! p) /\
    ticks w1' = ticks empty_world.
Proof.
  apply (write_local_file_overwrites lcg 11 "f" 10 4 empty_world
           (mkWorld {[ "f" := zero_bytes 99 ]} 0 [])); lia.
Defined.

(** ** Batched deletion against a service that may refuse *)

Lemma range_from_lookup (step fuel i stop j x : nat) :
  range_from fuel i stop step !! j = Some x ->
  x = (i + j * step)%nat /\ (x < stop)%nat.
Proof.
  revert i j. induction fuel as [|fuel IH]; intros i j; simpl; [discriminate|].
  destruct (Nat.ltb_spec i stop) as [Hlt|Hge]; [|discriminate].
  destruct j as [|j]; simpl.
  - intros [= <-]. lia.
  - intros H. apply IH in H. lia.
Qed.

(** How far the loop gets on a list of batch starts. *)
Lemma delete_loop_sent (s3 : S3Client) (bucket : string) (keys : list string)
    (starts : list nat) (w : World) :
  let run := delete_loop s3 bucket keys starts w in
  exists sent rest : list nat,
    starts = sent ++ rest /\
    out (snd run) = out w ++ map (delete_event bucket) (map (batch_of keys) sent) /\
    fs (snd run) = fs w /\
    match fst run with
    | Ok _ => rest = [] /\ Forall (accepted s3 bucket) (map (batch_of keys) sent)
    | Raise e =>
        exists done i,
          sent = done ++ [i] /\
          delete_objects s3 bucket (fst (batch_of keys i)) true = Raise e /\
          Forall (accepted s3 bucket) (map (batch_of keys) done)
    end.
Proof.
  revert w. induction starts as [|i starts IH]; intros w; simpl.
  - exists [], []. simpl. rewrite app_nil_r. repeat split; constructor.
  - unfold mbind, M_bind, delete_objects_call.
    destruct (delete_objects s3 bucket (slice keys i (i + DELETE_BATCH)) true)
      as [[]|e] eqn:Ecall.
    + specialize (IH (emit (EvDeleteObjects bucket
                              (slice keys i (i + DELETE_BATCH)) true) w)).
      simpl in IH. destruct IH as (sent & rest & -> & Hout & Hfs & Hres).
      exists (i :: sent), rest. split; [reflexivity|].
      split; [rewrite Hout; simpl; now rewrite <- app_assoc|].
      split; [exact Hfs|].
      destruct (fst (delete_loop s3 bucket keys (sent ++ rest) _)) as [u|e].
      * destruct Hres as [-> Hacc]. split; [reflexivity|].
        simpl. constructor; [exact Ecall | exact Hacc].
      * destruct Hres as (done & i' & -> & Hrej & Hacc).
        exists (i :: done), i'. split; [reflexivity|]. split; [exact Hrej|].
        simpl. constructor; [exact Ecall | exact Hacc].
    + exists [i], starts. simpl. split; [reflexivity|].
      split; [reflexivity|]. split; [reflexivity|].
      exists [], i. split; [reflexivity|]. split; [exact Ecall | constructor].
Qed.

Lemma batches_cover (keys : list string) :
  concat (map fst (map (batch_of keys) (py_range3 0 (length keys) DELETE_BATCH)))
  = keys.
Proof.
  rewrite map_map. unfold py_range3. simpl fst.
  rewrite (range_from_slices _ delete_batch_pos) by lia. reflexivity.
Qed.

(** X8. [s3_delete_many] stops at the first batch the service refuses:
    the requests sent name a beginning of the key list, the refused
    batch is the last one sent and its error is the one raised, every
    batch before it was accepted, and the keys of the later batches are
    never sent for deletion.  A call that returns has sent them all.
    The local files are not touched either way. *)
Theorem s3_delete_many_stops_at_first_failure (s3 : S3Client) (bucket : string)
    (keys : list string) (w : World) :
  let run := s3_delete_many s3 bucket keys w in
  exists (sent : list (list string * bool)) (unsent : list string),
    out (snd run) = out w ++ map (delete_event bucket) sent /\
    fs (snd run) = fs w /\
    concat (map fst sent) ++ unsent = keys /\
    match fst run with
    | Ok _ => unsent = [] /\ Forall (accepted s3 bucket) sent
    | Raise e =>
        exists done refused,
          sent = done ++ [refused] /\
          delete_objects s3 bucket (fst refused) (snd refused) = Raise e /\
          Forall (accepted s3 bucket) done
    end.
Proof.
  intros run. unfold run, s3_delete_many.
  pose proof (batches_cover keys) as Hcover.
  destruct (delete_loop_sent s3 bucket keys
              (py_range3 0 (length keys) DELETE_BATCH) w)
    as (sent & rest & Hsplit & Hout & Hfs & Hres).
  rewrite Hsplit in Hcover. rewrite !map_app, concat_app in Hcover.
  exists (map (batch_of keys) sent),
         (concat (map fst (map (batch_of keys) rest))).
  split; [exact Hout|]. split; [exact Hfs|]. split; [exact Hcover|].
  destruct (fst (delete_loop s3 bucket keys _ w)) as [u|e].
  - destruct Hres as [-> Hacc]. split; [reflexivity | exact Hacc].
  - destruct Hres as (done & i & -> & Hrej & Hacc).
    exists (map (batch_of keys) done), (batch_of keys i).
    split; [now rewrite map_app|]. split; [exact Hrej | exact Hacc].
Qed.

(** X9. Whether it returns or raises, [s3_delete_many] never sends an
    empty request nor one with more than 1000 keys, always sets the
    quiet flag, and every request that is followed by another one names
    exactly 1000 keys. *)
Theorem s3_delete_many_request_sizes (s3 : S3Client) (bucket : string)
    (keys : list string) (w : World) :
  let run := s3_delete_many s3 bucket keys w in
  exists sent : list (list string * bool),
    out (snd run) = out w ++ map (delete_event bucket) sent /\
    Forall (fun r => (1 <= length (fst r) <= 1000)%nat /\ snd r = true) sent /\
    (forall i r, sent !! i = Some r -> (S i < length sent)%nat ->
                 length (fst r) = 1000%nat).
Proof.
  intros run. unfold run, s3_delete_many.
  destruct (delete_loop_sent s3 bucket keys
              (py_range3 0 (length keys) DELETE_BATCH) w)
    as (sent & rest & Hsplit & Hout & _ & _).
  exists (map (batch_of keys) sent). split; [exact Hout|].
  assert (Hlook : forall j x, sent !! j = Some x ->
                    x = (j * DELETE_BATCH)%nat /\ (x < length keys)%nat).
  { intros j x Hj.
    assert (Hin : py_range3 0 (length keys) DELETE_BATCH !! j = Some x).
    { rewrite Hsplit. now apply lookup_app_l_Some. }
    unfold py_range3 in Hin. apply range_from_lookup in Hin. lia. }
  assert (Hlen : forall x, length (fst (batch_of keys x))
                           = Nat.min DELETE_BATCH (length keys - x)).
  { intros x. unfold batch_of, slice. cbn [fst].
    rewrite length_take, length_drop. lia. }
  split.
  - apply Forall_forall. intros r Hr.
    apply list_elem_of_fmap in Hr as (x & -> & Hx).
    apply list_elem_of_lookup in Hx as [j Hj].
    destruct (Hlook j x Hj) as [_ Hlt]. rewrite Hlen.
    pose proof delete_batch_pos. unfold DELETE_BATCH in *.
    split; [lia | reflexivity].
  - intros i r Hr Hi. rewrite length_map in Hi.
    rewrite list_lookup_fmap in Hr.
    destruct (sent !! i) as [x|] eqn:Hx; [|discriminate].
    injection Hr as <-.
    destruct (lookup_lt_is_Some_2 sent (S i) Hi) as [x' Hx'].
    destruct (Hlook _ _ Hx) as [-> _]. destruct (Hlook _ _ Hx') as [-> Hlt'].
    rewrite Hlen. unfold DELETE_BATCH in *. lia.
Qed.

Example delete_refused_second_batch :
  let keys := gen_object_keys "p" 2500 in
  let run := s3_delete_many (s3_reject_delete_of "p/obj_01500.bin") "b" keys
               empty_world in
  fst run = Raise (ClientError "AccessDenied") /\
  map (fun r => length (fst r)) (delete_requests (out (snd run)))
  = [1000; 1000]%nat.
Proof. vm_compute. split; reflexivity. Qed.

(** ** Generation followed by upload *)



(** ** Runs of the driver that do not reach their end *)

Lemma write_loop_nothing_to_write (G : Prng) (fuel : nat) (path : string)
    (chunk_bytes remaining : Z) (rnd : rng G) (w : World) :
  remaining <= 0 ->
  write_loop G (S fuel) path chunk_bytes remaining rnd w = Some w.
Proof.
  intros Hle. simpl. destruct (Z.ltb_spec 0 remaining); [lia | reflexivity].
Qed.

(** X11. Whether [main] ends is decided by the generation of the local
    file alone: with an object size of zero or below, or a write chunk
    of at least one KiB, it ends (normally or with an exception) once
    given fuel above the object size; with a positive object size and a
    write chunk of zero or below it never ends, so no upload is ever
    started. *)
Theorem main_terminates_iff_chunk_positive (G : Prng) (env : Env)
    (s3 : S3Client) (args : Args) (w : World) :
  (a_obj_mib args <= 0 \/ 1 <= a_write_chunk_kib args ->
   forall fuel : nat,
     Z.max 0 (a_obj_mib args * 1024 * 1024) < Z.of_nat fuel ->
     exists r, main G fuel env s3 args w = Some r) /\
  (0 < a_obj_mib args -> a_write_chunk_kib args < 1 ->
   forall fuel : nat, main G fuel env s3 args w = None).
Proof.
  split.
  - intros Hcase fuel Hfuel. unfold main.
    destruct ((_ ← print _; now env) w) as [[t0|e] w1]; [|eauto].
    destruct (Z_le_gt_dec (a_obj_mib args) 0) as [Hsize|Hsize].
    + destruct fuel as [|fuel]; [lia|].
      unfold write_local_file.
      rewrite write_loop_nothing_to_write by lia. eauto.
    + destruct (write_local_file_spec G fuel (local_path_of args)
                  (a_obj_mib args * 1024 * 1024)
                  (a_write_chunk_kib args * 1024) w1)
        as (blocks & -> & _); [lia | exact Hfuel | eauto].
  - intros Hsize Hchunk fuel. unfold main.
    destruct ((_ ← print _; now env) w) as [[t0|e] w1] eqn:E0.
    + unfold write_local_file. rewrite write_loop_diverges; [reflexivity|lia|lia].
    + unfold mbind, M_bind, print, now in E0. discriminate.
Qed.

Lemma main_terminates_iff_chunk_positive_witness :
  (forall fuel : nat,
     Z.max 0 (a_obj_mib args_keep * 1024 * 1024) < Z.of_nat fuel ->
     exists r, main lcg fuel env_reversed s3_accept_all args_keep empty_world
               = Some r) /\
  (forall fuel : nat,
     main lcg fuel env_reversed s3_accept_all
       (mkArgs "bucket" "bench" 2 1 0 8 1024 2 0 256 false) empty_world = None).
Proof.
  split.
  - apply (main_terminates_iff_chunk_positive lcg env_reversed s3_accept_all
             args_keep empty_world).
    left. simpl. lia.
  - apply (main_terminates_iff_chunk_positive lcg env_reversed s3_accept_all
             (mkArgs "bucket" "bench" 2 1 0 8 1024 2 0 256 false) empty_world);
      simpl; lia.
Defined.

Lemma no_remove_app (e1 e2 : list Event) :
  no_remove e1 -> no_remove e2 -> no_remove (e1 ++ e2).
Proof. intros H1 H2. now apply Forall_app. Qed.

Lemma keeps_files_same (A : Type) (c : M A) :
  (forall w r w', c w = (r, w') -> fs w' = fs w /\ out w' = out w) ->
  keeps_files c.
Proof.
  intros H w r w' Hrun. destruct (H w r w' Hrun) as [Hfs Hout].
  split; [exact Hfs|]. exists []. split; [now rewrite app_nil_r | constructor].
Qed.

Lemma keeps_files_ret {A} (a : A) : keeps_files (mret a : M A).
Proof. apply keeps_files_same. intros w r w' [= <- <-]. now split. Qed.

Lemma keeps_files_lift {A} (r : Res A) : keeps_files (lift r).
Proof. apply keeps_files_same. intros w r' w' [= <- <-]. now split. Qed.

Lemma keeps_files_now (env : Env) : keeps_files (now env).
Proof. apply keeps_files_same. intros w r w' [= <- <-]. now split. Qed.

Lemma keeps_files_getsize (path : string) : keeps_files (getsize path).
Proof.
  apply keeps_files_same. intros w r w'. unfold getsize.
  destruct (fs w !! path); intros [= <- <-]; now split.
Qed.

Lemma keeps_files_print (l : Line) : keeps_files (print l).
Proof.
  intros w r w' [= <- <-]. split; [reflexivity|].
  exists [EvPrint l]. split; [reflexivity | now repeat constructor].
Qed.

Lemma keeps_files_bind {A B} (c : M A) (f : A -> M B) :
  keeps_files c -> (forall a, keeps_files (f a)) -> keeps_files (c ≫= f).
Proof.
  intros Hc Hf w r w'. unfold mbind, M_bind.
  destruct (c w) as [[a|e] w1] eqn:Ec; intros H.
  - destruct (Hc _ _ _ Ec) as (Hfs1 & e1 & Ho1 & Hn1).
    destruct (Hf a _ _ _ H) as (Hfs2 & e2 & Ho2 & Hn2).
    split; [congruence|]. exists (e1 ++ e2).
    split; [now rewrite Ho2, Ho1, app_assoc | now apply no_remove_app].
  - injection H as <- <-. exact (Hc _ _ _ Ec).
Qed.

Lemma keeps_files_delete (s3 : S3Client) (bucket : string) (keys : list string) :
  keeps_files (s3_delete_many s3 bucket keys).
Proof.
  intros w r w' Hrun. unfold s3_delete_many in Hrun.
  destruct (delete_loop_sent s3 bucket keys
              (py_range3 0 (length keys) DELETE_BATCH) w)
    as (sent & rest & _ & Hout & Hfs & _).
  rewrite Hrun in Hout, Hfs. simpl in Hout, Hfs. split; [exact Hfs|].
  eexists. split; [exact Hout|].
  apply Forall_map, Forall_forall. intros x _. reflexivity.
Qed.

Create HintDb files.
#[local] Hint Resolve keeps_files_ret keeps_files_lift keeps_files_now
  keeps_files_getsize keeps_files_print keeps_files_delete : files.

Ltac files_steps :=
  repeat first [ apply keeps_files_bind; [|intro] | solve [auto with files] ].

Lemma keeps_files_print_stats (s : Stats) : keeps_files (print_stats s).
Proof. unfold print_stats. files_steps. Qed.

Lemma keeps_files_upload (env : Env) (s3 : S3Client) (bucket : string)
    (keys : list string) (local_path : string) (part_size max_conc : Z) :
  keeps_files (s3_upload_many env s3 bucket keys local_path part_size max_conc).
Proof. unfold s3_upload_many. files_steps. Qed.

Lemma keeps_files_download (env : Env) (s3 : S3Client) (bucket : string)
    (keys : list string) (read_chunk max_conc : Z) :
  keeps_files (s3_download_many env s3 bucket keys read_chunk max_conc).
Proof. unfold s3_download_many. files_steps. Qed.

Lemma keeps_files_range_read (env : Env) (s3 : S3Client) (bucket : string)
    (keys : list string) (ranges_per_obj range_size max_conc : Z) :
  keeps_files (s3_range_read_many env s3 bucket keys ranges_per_obj range_size
                 max_conc).
Proof. unfold s3_range_read_many. files_steps. Qed.

#[local] Hint Resolve keeps_files_print_stats keeps_files_upload
  keeps_files_download keeps_files_range_read : files.

Lemma fails_clean_bind {A B} (c : M A) (f : A -> M B) :
  keeps_files c -> (forall a, fails_clean (f a)) -> fails_clean (c ≫= f).
Proof.
  intros Hc Hf w e w'. unfold mbind, M_bind.
  destruct (c w) as [[a|e0] w1] eqn:Ec; intros H.
  - destruct (Hc _ _ _ Ec) as (Hfs1 & e1 & Ho1 & Hn1).
    destruct (Hf a _ _ _ H) as (Hfs2 & e2 & Ho2 & Hn2).
    split; [congruence|]. exists (e1 ++ e2).
    split; [now rewrite Ho2, Ho1, app_assoc | now apply no_remove_app].
  - injection H as <- <-. exact (Hc _ _ _ Ec).
Qed.

Lemma fails_clean_try_remove (path : string) :
  fails_clean (try_except_OSError (os_remove path)).
Proof.
  intros w e w' H. apply try_remove_ok in H as [H _]. discriminate.
Qed.

Lemma fails_clean_main_after_gen (env : Env) (s3 : S3Client) (args : Args)
    (t0 : float) :
  fails_clean (main_after_gen env s3 args t0).
Proof.
  unfold main_after_gen. cbv zeta.
  do 10 (apply fails_clean_bind; [solve [auto with files] | intro]).
  apply fails_clean_bind.
  { destruct (0 <? a_range_reads_per_obj args); files_steps. }
  intro. apply fails_clean_bind.
  { destruct (a_keep args); files_steps. }
  intro. apply fails_clean_try_remove.
Qed.

Lemma write_loop_keeps_file (G : Prng) (fuel : nat) (path : string)
    (chunk_bytes remaining : Z) (rnd : rng G) (w w' : World) :
  write_loop G fuel path chunk_bytes remaining rnd w = Some w' ->
  is_Some (fs w !! path) ->
  is_Some (fs w' !! path) /\ ticks w' = ticks w /\
  exists evs, out w' = out w ++ evs /\ no_remove evs.
Proof.
  revert remaining rnd w. induction fuel as [|fuel IH]; intros remaining rnd w;
    simpl; [discriminate|].
  destruct (0 <? remaining).
  - destruct (gen_block G _ rnd) as [block rnd']. intros H Hfile.
    apply IH in H as (Hf & Ht & evs & Hout & Hno).
    + split; [exact Hf|]. split; [exact Ht|].
      exists (EvWrite path block :: evs).
      split; [rewrite Hout; simpl; now rewrite <- app_assoc|].
      constructor; [reflexivity | exact Hno].
    + unfold file_write. simpl. rewrite lookup_insert_eq. eauto.
  - intros [= <-] Hfile. split; [exact Hfile|]. split; [reflexivity|].
    exists []. split; [now rewrite app_nil_r | constructor].
Qed.

Lemma write_local_file_keeps_file (G : Prng) (fuel : nat) (path : string)
    (size_bytes chunk_bytes : Z) (w w' : World) :
  write_local_file G fuel path size_bytes chunk_bytes w = Some w' ->
  is_Some (fs w' !! path) /\ ticks w' = ticks w /\
  exists evs, out w' = out w ++ evs /\ no_remove evs.
Proof.
  unfold write_local_file. intros H.
  apply write_loop_keeps_file in H as (Hf & Ht & evs & Hout & Hno).
  - split; [exact Hf|]. split; [exact Ht|].
    exists (EvOpen path :: evs).
    split; [rewrite Hout; simpl; now rewrite <- app_assoc|].
    constructor; [reflexivity | exact Hno].
  - unfold file_open. simpl. rewrite lookup_insert_eq. eauto.
Qed.

(** X12. The cleanup of [main] is not in a [finally]: when a run ends
    with an exception, whichever statement raised it, the local file is
    still there and [os.remove] was never called. *)
Theorem main_failure_leaves_local_file (G : Prng) (fuel : nat) (env : Env)
    (s3 : S3Client) (args : Args) (w w' : World) (e : exn) :
  main G fuel env s3 args w = Some (Raise e, w') ->
  is_Some (fs w' !! local_path_of args) /\
  exists evs, out w' = out w ++ evs /\ no_remove evs.
Proof.
  unfold main. intros H.
  destruct ((_ ← print _; now env) w) as [[t0|e0] w1] eqn:E0.
  - assert (H0 : keeps_files
                   (_ ← print (LGenerating (local_path_of args) (a_obj_mib args)
                                 (a_write_chunk_kib args)); now env))
      by files_steps.
    destruct (H0 _ _ _ E0) as (_ & ev0 & Hout0 & Hno0).
    destruct (write_local_file G fuel _ _ _ w1) as [w2|] eqn:Ew; [|discriminate].
    apply write_local_file_keeps_file in Ew as (Hfile & _ & ev1 & Hout1 & Hno1).
    injection H as H.
    apply fails_clean_main_after_gen in H as (Hfs & ev2 & Hout2 & Hno2).
    split; [now rewrite Hfs|].
    exists (ev0 ++ ev1 ++ ev2). split.
    + rewrite Hout2, Hout1, Hout0, <- !app_assoc. reflexivity.
    + now repeat apply no_remove_app.
  - unfold mbind, M_bind, print, now in E0. discriminate.
Qed.

Lemma main_failure_leaves_local_file_witness :
  let run := main lcg 5 env_reversed (s3_failing_on "bench/microbench/obj_00001.bin")
               args_cleanup empty_world in
  is_Some (fs (world_after empty_world run) !! local_path_of args_cleanup) /\
  exists evs, out (world_after empty_world run) = out empty_world ++ evs /\
              no_remove evs.
Proof.
  apply (main_failure_leaves_local_file lcg 5 env_reversed
           (s3_failing_on "bench/microbench/obj_00001.bin") args_cleanup
           empty_world _ (ClientError "AccessDenied")).
  vm_compute. reflexivity.
Defined.

(** X13. With [--part-mib] or [--max-concurrency] at zero or below, a
    run of [main] that ends does so with an exception and after exactly
    two clock readings, with the local file still there: no phase has
    started its timer.  The exception is the ValueError of the transfer
    configuration, unless the generation-rate line raised before it
    (ZeroDivisionError for equal clock readings, OverflowError for an
    object size too large for a float).  So a run that reaches its end
    had both options at one or above. *)
Theorem main_rejects_nonpositive_transfer_config (G : Prng) (fuel : nat)
    (env : Env) (s3 : S3Client) (args : Args) (w w' : World) (r : Res unit) :
  main G fuel env s3 args w = Some (r, w') ->
  a_part_mib args <= 0 \/ a_max_concurrency args <= 0 ->
  ticks w' = S (S (ticks w)) /\
  is_Some (fs w' !! local_path_of args) /\
  (exists e, r = Raise e /\
             (e = ValueError \/ e = ZeroDivisionError \/ e = OverflowError)) /\
  (SFeqb (float_sub (perf_counter env (S (ticks w))) (perf_counter env (ticks w)))
         fzero = false ->
   is_ok (int_truediv (a_obj_mib args * 1024 * 1024) (1024 * 1024)) = true ->
   r = Raise ValueError).
Proof.
  unfold main. intros H Hbad.
  change ((_ ← print (LGenerating (local_path_of args) (a_obj_mib args)
                        (a_write_chunk_kib args)); now env) w)
    with (Ok (perf_counter env (ticks w)),
          mkWorld (fs w) (S (ticks w))
            (out w ++ [EvPrint (LGenerating (local_path_of args) (a_obj_mib args)
                                  (a_write_chunk_kib args))])) in H.
  cbv iota beta in H.
  destruct (write_local_file G fuel _ _ _ _) as [w2|] eqn:Ew; [|discriminate].
  apply write_local_file_keeps_file in Ew as (Hfile & Hticks & _).
  simpl in Hticks. injection H as H.
  unfold main_after_gen in H. cbv zeta in H.
  unfold mbind at 1, M_bind at 1, now at 1 in H. rewrite Hticks in H.
  unfold mbind at 1, M_bind at 1, lift at 1 in H.
  destruct (int_truediv (a_obj_mib args * 1024 * 1024) (1024 * 1024))
    as [m|e] eqn:Em.
  - unfold mbind at 1, M_bind at 1, lift at 1, float_truediv in H.
    destruct (SFeqb _ fzero) eqn:Ez.
    + injection H as <- <-. repeat split; try assumption; [eauto|].
      intros; discriminate.
    + unfold mbind at 1, M_bind at 1, print at 1 in H.
      unfold mbind at 1, M_bind at 1, print at 1 in H.
      unfold mbind at 1, M_bind at 1 in H.
      rewrite s3_upload_many_rejected in H by lia.
      injection H as <- <-. repeat split; try assumption; eauto.
  - injection H as <- <-. repeat split; try assumption.
    + exists e. split; [reflexivity|]. right. right.
      eapply int_truediv_raises; [|exact Em]. lia.
    + intros _ Hok. discriminate.
Qed.

Lemma main_rejects_nonpositive_transfer_config_witness :
  let args := mkArgs "bucket" "bench" 0 0 1024 8 1024 0 0 256 false in
  let w' := world_after empty_world
              (main lcg 5 env_reversed s3_accept_all args empty_world) in
  ticks w' = S (S (ticks empty_world)) /\
  is_Some (fs w' !! local_path_of args) /\
  (exists e, @Raise unit ValueError = Raise e /\
             (e = ValueError \/ e = ZeroDivisionError \/ e = OverflowError)) /\
  (SFeqb (float_sub (perf_counter env_reversed (S (ticks empty_world)))
            (perf_counter env_reversed (ticks empty_world)))
         fzero = false ->
   is_ok (int_truediv (a_obj_mib args * 1024 * 1024) (1024 * 1024)) = true ->
   @Raise unit ValueError = Raise ValueError).
Proof.
  apply (main_rejects_nonpositive_transfer_config lcg 5 env_reversed
           s3_accept_all (mkArgs "bucket" "bench" 0 0 1024 8 1024 0 0 256 false)
           empty_world).
  - vm_compute. reflexivity.
  - right. simpl. lia.
Defined.

Example main_without_workers :
  option_map fst
    (main lcg 5 env_reversed s3_accept_all
       (mkArgs "bucket" "bench" 0 0 1024 8 1024 0 0 256 false) empty_world)
  = Some (Raise ValueError).
Proof. vm_compute. reflexivity. Qed.

Example main_without_part_size :
  option_map fst
    (main lcg 5 env_reversed s3_accept_all
       (mkArgs "bucket" "bench" 2 0 1024 0 1024 2 0 256 false) empty_world)
  = Some (Raise ValueError).
Proof. vm_compute. reflexivity. Qed.

(** X14. The rate printed after the generation is not guarded the way
    [Stats.mib_per_s] is: when the two clock readings around
    [write_local_file] are equal, a run that gets past the generation
    raises ZeroDivisionError there, before any upload. *)
Theorem main_zero_generation_time (G : Prng) (fuel : nat) (env : Env)
    (s3 : S3Client) (args : Args) (w w' : World) (r : Res unit) :
  main G fuel env s3 args w = Some (r, w') ->
  SFeqb (float_sub (perf_counter env (S (ticks w))) (perf_counter env (ticks w)))
        fzero = true ->
  is_ok (int_truediv (a_obj_mib args * 1024 * 1024) (1024 * 1024)) = true ->
  r = Raise ZeroDivisionError /\
  ticks w' = S (S (ticks w)) /\
  is_Some (fs w' !! local_path_of args).
Proof.
  unfold main. intros H Hzero Hmib.
  change ((_ ← print (LGenerating (local_path_of args) (a_obj_mib args)
                        (a_write_chunk_kib args)); now env) w)
    with (Ok (perf_counter env (ticks w)),
          mkWorld (fs w) (S (ticks w))
            (out w ++ [EvPrint (LGenerating (local_path_of args) (a_obj_mib args)
                                  (a_write_chunk_kib args))])) in H.
  cbv iota beta in H.
  destruct (write_local_file G fuel _ _ _ _) as [w2|] eqn:Ew; [|discriminate].
  apply write_local_file_keeps_file in Ew as (Hfile & Hticks & _).
  simpl in Hticks. injection H as H.
  unfold main_after_gen in H. cbv zeta in H.
  unfold mbind at 1, M_bind at 1, now at 1 in H. rewrite Hticks in H.
  unfold mbind at 1, M_bind at 1, lift at 1 in H.
  destruct (int_truediv (a_obj_mib args * 1024 * 1024) (1024 * 1024))
    as [m|e]; [|discriminate].
  unfold mbind at 1, M_bind at 1, lift at 1, float_truediv in H.
  rewrite Hzero in H. injection H as <- <-.
  split; [reflexivity|]. split; [reflexivity | exact Hfile].
Qed.

Lemma main_zero_generation_time_witness :
  let run := main lcg 5 env_frozen s3_accept_all args_cleanup empty_world in
  @Raise unit ZeroDivisionError = Raise ZeroDivisionError /\
  ticks (world_after empty_world run) = S (S (ticks empty_world)) /\
  is_Some (fs (world_after empty_world run) !! local_path_of args_cleanup).
Proof.
  apply (main_zero_generation_time lcg 5 env_frozen s3_accept_all args_cleanup
           empty_world).
  - vm_compute. reflexivity.
  - vm_compute. reflexivity.
  - vm_compute. reflexivity.
Defined.

Example main_frozen_clock :
  option_map fst (main lcg 5 env_frozen s3_accept_all args_cleanup empty_world)
  = Some (Raise ZeroDivisionError).
Proof. vm_compute. reflexivity. Qed.

(** ** What a completed run prints *)

Lemma printed_app (e1 e2 : list Event) : printed (e1 ++ e2) = printed e1 ++ printed e2.
Proof. unfold printed. apply omap_app. Qed.

Lemma logged_trans (w1 w2 w3 : World) (n1 n2 : list string) :
  logged w1 w2 n1 -> logged w2 w3 n2 -> logged w1 w3 (n1 ++ n2).
Proof.
  intros (e1 & H1 & Hn1) (e2 & H2 & Hn2). exists (e1 ++ e2). split.
  - now rewrite H2, H1, app_assoc.
  - now rewrite printed_app, map_app, Hn1, Hn2.
Qed.

Lemma logged_same_out (w w' : World) : out w' = out w -> logged w w' [].
Proof. intros H. exists []. split; [now rewrite app_nil_r | reflexivity]. Qed.

Lemma logged_print (l : Line) (w w' : World) (r : Res unit) :
  print l w = (r, w') -> logged w w' [line_name l].
Proof. intros [= <- <-]. exists [EvPrint l]. split; reflexivity. Qed.

Lemma logged_keeps_out {A} (c : M A) (w w' : World) (r : Res A) :
  (forall w r w', c w = (r, w') -> out w' = out w) ->
  c w = (r, w') -> logged w w' [].
Proof. intros Hc H. apply logged_same_out. exact (Hc _ _ _ H). Qed.

Lemma pool_phase_ok (env : Env) (op : string -> Res Z) (keys : list string)
    (max_conc : Z) (lbl : string) (w w' : World) (st : Stats) :
  pool_phase env op keys max_conc lbl w = (Ok st, w') ->
  label st = lbl /\ out w' = out w.
Proof.
  unfold pool_phase. destruct (run_pool _ _ _); [|discriminate].
  intros [= <- <-]. split; reflexivity.
Qed.

Lemma upload_ok_label (env : Env) (s3 : S3Client) (bucket : string)
    (keys : list string) (local_path : string) (part_size max_conc : Z)
    (w w' : World) (st : Stats) :
  s3_upload_many env s3 bucket keys local_path part_size max_conc w = (Ok st, w') ->
  label st = "S3 PUT (upload_file)" /\ out w' = out w.
Proof.
  unfold s3_upload_many. intros H.
  apply bind_ok_inv in H as (cfg & w0 & Hcfg & H).
  apply bind_ok_inv in H as (size & w1 & Hsize & H).
  apply bind_ok_inv in H as (t0 & w2 & Ht0 & H).
  apply bind_ok_inv in H as (total & w3 & Hpool & H).
  apply bind_ok_inv in H as (t1 & w4 & Ht1 & H).
  injection H as <- <-. split; [reflexivity|].
  unfold lift in Hcfg, Hpool. injection Hcfg as _ <-. injection Hpool as _ <-.
  unfold now in Ht0, Ht1. injection Ht0 as _ <-. injection Ht1 as _ <-.
  unfold getsize in Hsize. destruct (fs w !! local_path); [|discriminate].
  injection Hsize as _ <-. reflexivity.
Qed.

Lemma print_stats_logged (s : Stats) (w w' : World) :
  print_stats s w = (Ok tt, w') -> logged w w' [label s].
Proof.
  unfold print_stats. intros H.
  apply bind_ok_inv in H as (m & w1 & Hm & H).
  apply bind_ok_inv in H as (r & w2 & Hr & H).
  unfold lift in Hm, Hr. injection Hm as _ <-. injection Hr as _ <-.
  now apply logged_print in H.
Qed.

Lemma delete_logged (s3 : S3Client) (bucket : string) (keys : list string)
    (w w' : World) (r : Res unit) :
  s3_delete_many s3 bucket keys w = (r, w') -> logged w w' [].
Proof.
  intros Hrun. unfold s3_delete_many in Hrun.
  destruct (delete_loop_sent s3 bucket keys
              (py_range3 0 (length keys) DELETE_BATCH) w)
    as (sent & rest & _ & Hout & _ & _).
  rewrite Hrun in Hout. simpl in Hout. eexists. split; [exact Hout|].
  generalize (map (batch_of keys) sent). intros l.
  induction l as [|x l IH]; [reflexivity | exact IH].
Qed.

Lemma write_local_file_logged (G : Prng) (fuel : nat) (path : string)
    (size_bytes chunk_bytes : Z) (w w' : World) :
  write_local_file G fuel path size_bytes chunk_bytes w = Some w' ->
  logged w w' [].
Proof.
  unfold write_local_file. intros H.
  assert (Hloop : forall fuel remaining rnd w w',
             write_loop G fuel path chunk_bytes remaining rnd w = Some w' ->
             logged w w' []).
  { clear. induction fuel as [|fuel IH]; intros remaining rnd w w'; simpl;
      [discriminate|].
    destruct (0 <? remaining).
    - destruct (gen_block G _ rnd) as [block rnd']. intros H.
      apply IH in H.
      apply (logged_trans w (file_write path block w) w' [] []); [|exact H].
      exists [EvWrite path block]. split; reflexivity.
    - intros [= <-]. now apply logged_same_out. }
  apply Hloop in H.
  apply (logged_trans w (file_open path w) w' [] []); [|exact H].
  exists [EvOpen path]. split; reflexivity.
Qed.

(** X15. A run of [main] that reaches its end has printed, in this
    order: the generation line and its rate, the upload line and the
    PUT Stats, the download line and the GET Stats, then the ranged-read
    line and its Stats exactly when [--range-reads-per-obj] is above
    zero (labelled with the count and the range size in bytes), and
    last the lines of the cleanup block that the keep flag selects. *)
Theorem main_prints_in_order (G : Prng) (fuel : nat) (env : Env) (s3 : S3Client)
    (args : Args) (w w' : World) :
  main G fuel env s3 args w = Some (Ok tt, w') ->
  logged w w'
    (["Generating local file"; "Local gen"; "Uploading"; "S3 PUT (upload_file)";
      "Downloading (stream)"; "S3 GET (stream read)"]
     ++ range_block_names args ++ cleanup_block_names args).
Proof.
  unfold main. intros H.
  destruct ((_ ← print _; now env) w) as [[t0|e0] w1] eqn:E0; [|discriminate].
  apply bind_ok_inv in E0 as ([] & wa & Hgen & Hnow).
  apply logged_print in Hgen.
  apply (logged_keeps_out (now env)) in Hnow; [|now intros ? ? ? [= <- <-]].
  destruct (write_local_file G fuel _ _ _ w1) as [w2|] eqn:Ew; [|discriminate].
  apply write_local_file_logged in Ew. injection H as H.
  unfold main_after_gen in H. cbv zeta in H.
  apply bind_ok_inv in H as (t1 & w3 & H1 & H).
  apply (logged_keeps_out (now env)) in H1; [|now intros ? ? ? [= <- <-]].
  apply bind_ok_inv in H as (gm & w4 & H2 & H).
  apply (logged_keeps_out (lift _)) in H2; [|now intros ? ? ? [= <- <-]].
  apply bind_ok_inv in H as (gr & w5 & H3 & H).
  apply (logged_keeps_out (lift _)) in H3; [|now intros ? ? ? [= <- <-]].
  apply bind_ok_inv in H as ([] & w6 & H4 & H). apply logged_print in H4.
  apply bind_ok_inv in H as ([] & w7 & H5 & H). apply logged_print in H5.
  apply bind_ok_inv in H as (put & w8 & H6 & H).
  apply upload_ok_label in H6 as [Lput H6]. apply logged_same_out in H6.
  apply bind_ok_inv in H as ([] & w9 & H7 & H).
  apply print_stats_logged in H7. rewrite Lput in H7.
  apply bind_ok_inv in H as ([] & w10 & H8 & H). apply logged_print in H8.
  apply bind_ok_inv in H as (get & w11 & H9 & H).
  rewrite s3_download_many_run in H9.
  apply pool_phase_ok in H9 as [Lget H9]. apply logged_same_out in H9.
  apply bind_ok_inv in H as ([] & w12 & H10 & H).
  apply print_stats_logged in H10. rewrite Lget in H10.
  apply bind_ok_inv in H as ([] & w13 & Hrange & H).
  apply bind_ok_inv in H as ([] & w14 & Hclean & H).
  apply try_remove_ok in H as (_ & Hrm & _).
  assert (Lrange : logged w12 w13 (range_block_names args)).
  { unfold range_block_names.
    destruct (0 <? a_range_reads_per_obj args).
    - apply bind_ok_inv in Hrange as ([] & wr1 & Hr1 & Hrange).
      apply logged_print in Hr1.
      apply bind_ok_inv in Hrange as (rr & wr2 & Hr2 & Hr3).
      rewrite s3_range_read_many_run in Hr2.
      apply pool_phase_ok in Hr2 as [Lrr Hr2]. apply logged_same_out in Hr2.
      apply print_stats_logged in Hr3. rewrite Lrr in Hr3.
      exact (logged_trans _ _ _ _ _ Hr1 (logged_trans _ _ _ _ _ Hr2 Hr3)).
    - injection Hrange as <-. now apply logged_same_out. }
  assert (Lclean : logged w13 w14 (cleanup_block_names args)).
  { unfold cleanup_block_names. destruct (a_keep args).
    - now apply logged_print in Hclean.
    - apply bind_ok_inv in Hclean as ([] & wc1 & Hc1 & Hclean).
      apply logged_print in Hc1.
      apply bind_ok_inv in Hclean as ([] & wc2 & Hc2 & Hc3).
      apply delete_logged in Hc2. apply logged_print in Hc3.
      exact (logged_trans _ _ _ _ _ Hc1 (logged_trans _ _ _ _ _ Hc2 Hc3)). }
  assert (Lrm : logged w14 w' []).
  { exists [EvRemove (local_path_of args)]. split; [exact Hrm | reflexivity]. }
  pose proof
    (logged_trans _ _ _ _ _ Hgen
    (logged_trans _ _ _ _ _ Hnow
    (logged_trans _ _ _ _ _ Ew
    (logged_trans _ _ _ _ _ H1
    (logged_trans _ _ _ _ _ H2
    (logged_trans _ _ _ _ _ H3
    (logged_trans _ _ _ _ _ H4
    (logged_trans _ _ _ _ _ H5
    (logged_trans _ _ _ _ _ H6
    (logged_trans _ _ _ _ _ H7
    (logged_trans _ _ _ _ _ H8
    (logged_trans _ _ _ _ _ H9
    (logged_trans _ _ _ _ _ H10
    (logged_trans _ _ _ _ _ Lrange
    (logged_trans _ _ _ _ _ Lclean Lrm)))))))))))))))
    as Hall.
  simpl in Hall. rewrite app_nil_r in Hall. exact Hall.
Qed.

Lemma main_prints_in_order_witness :
  logged empty_world
    (world_after empty_world
       (main lcg 5 env_reversed s3_accept_all args_cleanup empty_world))
    (["Generating local file"; "Local gen"; "Uploading"; "S3 PUT (upload_file)";
      "Downloading (stream)"; "S3 GET (stream read)"]
     ++ range_block_names args_cleanup ++ cleanup_block_names args_cleanup).
Proof.
  apply (main_prints_in_order lcg 5 env_reversed s3_accept_all args_cleanup
           empty_world).
  vm_compute. reflexivity.
Defined.

Example main_prints_with_range_reads :
  option_map (fun evs => map line_name (printed evs))
    (run_events
       (main lcg 5 env_reversed s3_accept_all
          (mkArgs "bucket" "bench" 2 0 1024 8 1024 2 3 64 true) empty_world))
  = Some ["Generating local file"; "Local gen"; "Uploading";
          "S3 PUT (upload_file)"; "Downloading (stream)"; "S3 GET (stream read)";
          "Range reads"; "S3 GET Range (3x65536B per obj)";
          "Keeping objects (no cleanup)."].
Proof. vm_compute. reflexivity. Qed.

Example upload_rejects_part_size_zero :
  s3_upload_many env_reversed (s3_failing_on "k0") "b" ["k0"] "f" 0 2
    (mkWorld {[ "f" := zero_bytes 5 ]} 0 [])
  = (Raise ValueError, mkWorld {[ "f" := zero_bytes 5 ]} 0 []).
Proof. reflexivity. Qed.
